(** * QuietDrop: the record store, the settle check and the lifecycle actions

    A shallow embedding of [quietdrop/db.py], [quietdrop/scanner.py],
    [quietdrop/watcher.py] (the event handler's intake) and
    [quietdrop/actions.py], with the properties the specification states
    about them.

    Modelling conventions.
    - The [items] table is the list of its rows in rowid order.  A
      connection carries the table, the AUTOINCREMENT counter kept in
      [sqlite_sequence], and SQLite's per-connection "last insert rowid",
      which is what [cursor.lastrowid] reads after [execute].
    - [time.time()] is an explicit argument [now] of every operation that
      reads the clock; the clock does not advance within one call.
      Timestamps are rationals: Python floats are idealised as exact
      numbers (no rounding, no NaN).
    - Paths are strings in pathlib's normal form on a POSIX system, as
      [str(Path(...))] produces them.
    - The file system is a finite map from paths to regular files.
      Directories are implicit: [mkdir(parents=True, exist_ok=True)] has no
      effect on the map, and operating-system failures (permissions,
      cross-device moves, a directory in the place of a file) are outside
      the model.
    - A Python exception is a value of [exn]; an operation that can raise
      returns a [result], together with the state it leaves behind. *)

From Stdlib Require Import ZArith QArith Qreduction String Ascii List Lia Bool.
From stdpp Require Import base tactics option list strings gmap pretty
  sorting relations.

Local Open Scope Z_scope.
Local Open Scope string_scope.

(** ** Exceptions *)

Inductive exn : Type :=
  | KeyError          (* actions: unknown item id *)
  | RuntimeError      (* _unique_dest: no free destination name *)
  | ValueError        (* pathlib: with_name on an invalid name *)
  | IntegrityError    (* sqlite3: UNIQUE constraint failed: items.path *)
  | FileNotFoundError (* os.replace: the source is gone *)
  | AssertionError.   (* a failed assert *)

Inductive result (A : Type) : Type :=
  | Ok (a : A)
  | Raise (e : exn).
Arguments Ok {A} a.
Arguments Raise {A} e.

(** ** db.py: the data model *)

Inductive Status : Type := new | reviewed | archived | rejected.

Global Instance Status_eq_dec : EqDecision Status.
Proof. solve_decision. Defined.

(** The text stored in the [status] column. *)
Definition status_text (s : Status) : string :=
  match s with
  | new => "new"
  | reviewed => "reviewed"
  | archived => "archived"
  | rejected => "rejected"
  end.

Module Item.
Record t : Type := mk {
  id : Z;
  path : string;
  filename : string;
  size : Z;
  mtime : Q;
  first_seen : Q;
  status : Status;
  reviewed_at : option Q;
  archived_at : option Q;
  rejected_at : option Q;
  tags : list string
}.
End Item.
Abbreviation Item := Item.t.

(** A connection to the database file. *)
Record Conn : Type := mkConn {
  items : list Item;          (* rows of the table, in rowid order *)
  sqlite_sequence : Z;        (* largest rowid AUTOINCREMENT has handed out *)
  last_insert_rowid : Z       (* sqlite3_last_insert_rowid; 0 on a new connection *)
}.

(** [connect] on a database file that does not exist yet. *)
Definition empty_db : Conn :=
  {| items := []; sqlite_sequence := 0; last_insert_rowid := 0 |}.

(** [connect] on an existing database: the table and the counter are on
    disk, the last insert rowid belongs to the connection and starts at 0. *)
Definition connect (db : Conn) : Conn :=
  {| items := items db; sqlite_sequence := sqlite_sequence db;
     last_insert_rowid := 0 |}.

Definition with_items (con : Conn) (rows : list Item) : Conn :=
  {| items := rows; sqlite_sequence := sqlite_sequence con;
     last_insert_rowid := last_insert_rowid con |}.

(** ** db.py: queries *)

Definition has_id (item_id : Z) (r : Item) : bool := (Item.id r =? item_id)%Z.
Definition has_path (p : string) (r : Item) : bool := String.eqb (Item.path r) p.

(** [SELECT * FROM items WHERE id=?], [fetchone]. *)
Definition get_item (con : Conn) (item_id : Z) : option Item :=
  find (has_id item_id) (items con).

(** [SELECT * FROM items WHERE path=?], [fetchone]. *)
Definition get_item_by_path (con : Conn) (p : string) : option Item :=
  find (has_path p) (items con).

(** ** db.py: upsert_file *)

(** The [DO UPDATE SET filename=..., size=..., mtime=...] branch. *)
Definition refresh (filename : string) (size : Z) (mtime : Q) (r : Item) : Item :=
  {| Item.id := Item.id r; Item.path := Item.path r;
     Item.filename := filename; Item.size := size; Item.mtime := mtime;
     Item.first_seen := Item.first_seen r; Item.status := Item.status r;
     Item.reviewed_at := Item.reviewed_at r;
     Item.archived_at := Item.archived_at r;
     Item.rejected_at := Item.rejected_at r;
     Item.tags := Item.tags r |}.

(** The row [INSERT INTO items(path, filename, size, mtime, first_seen,
    status) VALUES(?, ?, ?, ?, ?, 'new')] creates: the three transition
    columns are NULL and [tags] takes its default ['[]']. *)
Definition fresh_row (rowid : Z) (path filename : string) (size : Z)
    (mtime now : Q) : Item :=
  {| Item.id := rowid; Item.path := path; Item.filename := filename;
     Item.size := size; Item.mtime := mtime; Item.first_seen := now;
     Item.status := new; Item.reviewed_at := None;
     Item.archived_at := None; Item.rejected_at := None;
     Item.tags := [] |}.

(** The INSERT ... ON CONFLICT(path) DO UPDATE statement.  SQLite draws the
    new rowid before it checks the UNIQUE constraint, so the AUTOINCREMENT
    counter advances on both branches; the last insert rowid is set only by
    the row that is really inserted. *)
Definition upsert_statement (con : Conn) (path filename : string) (size : Z)
    (mtime now : Q) : Conn :=
  let rowid := sqlite_sequence con + 1 in
  if existsb (has_path path) (items con) then
    {| items := fmap (fun r => if has_path path r
                              then refresh filename size mtime r else r)
                    (items con);
       sqlite_sequence := rowid;
       last_insert_rowid := last_insert_rowid con |}
  else
    {| items := items con ++ [fresh_row rowid path filename size mtime now];
       sqlite_sequence := rowid;
       last_insert_rowid := rowid |}.

(** [upsert_file]: run the statement, then
    [if cur.lastrowid: return int(cur.lastrowid)], else look the id up by
    path.  The row is always there after the statement
    ([upsert_statement_present]), so the default 0 is never returned. *)
Definition upsert_file (con : Conn) (path filename : string) (size : Z)
    (mtime now : Q) : Conn * Z :=
  let con' := upsert_statement con path filename size mtime now in
  let lastrowid := last_insert_rowid con' in
  if negb (lastrowid =? 0)%Z then (con', lastrowid)
  else (con', from_option Item.id 0 (get_item_by_path con' path)).

(** ** db.py: counts_by_status *)

Definition all_statuses : list Status := [new; reviewed; archived; rejected].

Definition count_status (s : Status) (rows : list Item) : Z :=
  Z.of_nat (length (filter (fun r => Item.status r = s) rows)).

(** [SELECT status, COUNT( * ) AS c FROM items GROUP BY status]: one row for
    each status that occurs in the table. *)
Definition group_by_status (rows : list Item) : list (Status * Z) :=
  omap (fun s => let c := count_status s rows in
                 if (c =? 0)%Z then None else Some (s, c)) all_statuses.

Definition counts_by_status (con : Conn) : gmap string Z :=
  foldl (fun out r => <[status_text r.1 := r.2]> out)
        (<["new" := 0]> (<["reviewed" := 0]> (<["archived" := 0]>
           (<["rejected" := 0]> ∅))))
        (group_by_status (items con)).

(** ** db.py: set_status *)

(** SQL's COALESCE on a nullable column and a nullable parameter. *)
Definition coalesce (old new_ : option Q) : option Q :=
  match old with Some _ => old | None => new_ end.

Definition stamp (status target : Status) (now : Q) : option Q :=
  if decide (status = target) then Some now else None.

Definition apply_status (status : Status) (now : Q) (r : Item) : Item :=
  {| Item.id := Item.id r; Item.path := Item.path r;
     Item.filename := Item.filename r; Item.size := Item.size r;
     Item.mtime := Item.mtime r; Item.first_seen := Item.first_seen r;
     Item.status := status;
     Item.reviewed_at := coalesce (Item.reviewed_at r) (stamp status reviewed now);
     Item.archived_at := coalesce (Item.archived_at r) (stamp status archived now);
     Item.rejected_at := coalesce (Item.rejected_at r) (stamp status rejected now);
     Item.tags := Item.tags r |}.

(** [UPDATE items SET status=?, reviewed_at=COALESCE(reviewed_at, ?), ...
    WHERE id=?]. *)
Definition set_status (con : Conn) (item_id : Z) (status : Status) (now : Q)
    : Conn :=
  with_items con
    (fmap (fun r => if has_id item_id r then apply_status status now r else r)
         (items con)).

(** ** db.py: set_path and set_path_by_old_path *)

Definition move_row (new_path new_filename : string) (r : Item) : Item :=
  {| Item.id := Item.id r; Item.path := new_path;
     Item.filename := new_filename; Item.size := Item.size r;
     Item.mtime := Item.mtime r; Item.first_seen := Item.first_seen r;
     Item.status := Item.status r; Item.reviewed_at := Item.reviewed_at r;
     Item.archived_at := Item.archived_at r;
     Item.rejected_at := Item.rejected_at r; Item.tags := Item.tags r |}.

(** [UPDATE items SET path=?, filename=? WHERE <sel>] under the UNIQUE
    constraint on [path]: the statement fails, and changes nothing, when a
    selected row would take a path that a row outside the selection holds,
    or when two selected rows would take the same path. *)
Definition update_path (sel : Item -> bool) (new_path new_filename : string)
    (con : Conn) : result Conn :=
  let hit := filter (fun r => sel r = true) (items con) in
  let clash :=
    existsb (fun r => negb (sel r) && has_path new_path r) (items con)
    || (1 <? Z.of_nat (length hit))%Z in
  if negb (bool_decide (hit = [])) && clash then Raise IntegrityError
  else Ok (with_items con
             (fmap (fun r => if sel r then move_row new_path new_filename r
                            else r) (items con))).

Definition set_path (con : Conn) (item_id : Z) (new_path new_filename : string)
    : result Conn :=
  update_path (has_id item_id) new_path new_filename con.

Definition set_path_by_old_path (con : Conn) (old_path new_path new_filename : string)
    : result Conn :=
  update_path (has_path old_path) new_path new_filename con.

(** ** db.py: add_tags *)

(** [str.isspace] on the ASCII range. *)
Definition is_space (c : ascii) : bool :=
  let n := nat_of_ascii c in
  ((9 <=? n)%nat && (n <=? 13)%nat) || ((28 <=? n)%nat && (n <=? 32)%nat).

Fixpoint lstrip (s : string) : string :=
  match s with
  | "" => ""
  | String c r => if is_space c then lstrip r else s
  end.

Fixpoint rstrip (s : string) : string :=
  match s with
  | "" => ""
  | String c r =>
      let r' := rstrip r in
      if is_space c && String.eqb r' "" then "" else String c r'
  end.

Definition strip (s : string) : string := rstrip (lstrip s).

(** [existing.add(t)] followed by [sorted(existing)]: the tags are kept as
    the sorted list of the set, in code-point order. *)
Fixpoint set_add (t : string) (l : list string) : list string :=
  match l with
  | [] => [t]
  | x :: r =>
      match String.compare t x with
      | Lt => t :: l
      | Eq => l
      | Gt => x :: set_add t r
      end
  end.

Definition sorted_set (l : list string) : list string := foldr set_add [] l.

Definition with_tags (ts : list string) (r : Item) : Item :=
  {| Item.id := Item.id r; Item.path := Item.path r;
     Item.filename := Item.filename r; Item.size := Item.size r;
     Item.mtime := Item.mtime r; Item.first_seen := Item.first_seen r;
     Item.status := Item.status r; Item.reviewed_at := Item.reviewed_at r;
     Item.archived_at := Item.archived_at r;
     Item.rejected_at := Item.rejected_at r; Item.tags := ts |}.

Definition add_tags (con : Conn) (item_id : Z) (tags : list string) : Conn :=
  match get_item con item_id with
  | None => con
  | Some item =>
      let existing :=
        foldl (fun acc t => let t' := strip t in
                            if String.eqb t' "" then acc else set_add t' acc)
              (sorted_set (Item.tags item)) tags in
      with_items con
        (fmap (fun r => if has_id item_id r then with_tags existing r else r)
             (items con))
  end.

(** ** pathlib on POSIX paths in normal form *)

Definition is_sep (c : ascii) : bool := Ascii.eqb c "/".
Definition is_dot (c : ascii) : bool := Ascii.eqb c ".".

Fixpoint has_char (p : ascii -> bool) (s : string) : bool :=
  match s with
  | "" => false
  | String c r => p c || has_char p r
  end.

(** The text after the last character that satisfies [p] (all of [s] when
    there is none). *)
Fixpoint after_last (p : ascii -> bool) (s : string) : string :=
  match s with
  | "" => ""
  | String c r => if has_char p s then after_last p r else s
  end.

(** The text before the last character that satisfies [p] (empty when
    there is none). *)
Fixpoint before_last (p : ascii -> bool) (s : string) : string :=
  match s with
  | "" => ""
  | String c r => if has_char p r then String c (before_last p r) else ""
  end.

(** Everything up to and including the last separator. *)
Fixpoint anchor (s : string) : string :=
  match s with
  | "" => ""
  | String c r => if has_char is_sep s then String c (anchor r) else ""
  end.

(** [Path(s).name]: the last component. *)
Definition path_name (s : string) : string := after_last is_sep s.

(** [name.rfind('.')] splits a name into stem and suffix when the last dot
    is neither the first nor the last character. *)
Definition has_suffix (name : string) : bool :=
  has_char is_dot name
  && negb (String.eqb (before_last is_dot name) "")
  && negb (String.eqb (after_last is_dot name) "").

(** [Path(s).suffix] and [Path(s).stem]. *)
Definition suffix (s : string) : string :=
  let name := path_name s in
  if has_suffix name then String "." (after_last is_dot name) else "".

Definition stem (s : string) : string :=
  let name := path_name s in
  if has_suffix name then before_last is_dot name else name.

Definition ends_with_sep (s : string) : bool :=
  match anchor s with
  | "" => false
  | _ => String.eqb (path_name s) ""
  end.

(** [str(Path(d) / name)] for a name without separators. *)
Definition joinpath (d name : string) : string :=
  if String.eqb d "." then name
  else if ends_with_sep d then d ++ name
  else d ++ "/" ++ name.

(** A name every supported interpreter version lets [with_name] accept:
    not empty, no separator, not ["."].  (Versions differ on ["."] and on
    a few names that contain a separator; they count as rejected here.) *)
Definition valid_name (name : string) : bool :=
  negb (String.eqb name "") && negb (has_char is_sep name)
  && negb (String.eqb name ".").

(** [str(Path(s).with_name(name))]; [ValueError] when [s] has an empty name
    or [name] is not a valid one. *)
Definition with_name (s name : string) : result string :=
  if String.eqb (path_name s) "" then Raise ValueError
  else if valid_name name then Ok (anchor s ++ name)
  else Raise ValueError.

(** ** The file system and the configuration *)

Record File : Type := mkFile {
  st_size : Z;
  st_mtime : Q;
  data : string
}.

(** config.py: [Config]. *)
Record Config : Type := mkConfig {
  watched_folders : list string;
  archive_folder : string;
  poll_seconds : Q;
  recursive : bool;
  settle_seconds : Q
}.

Record World : Type := mkWorld {
  con : Conn;
  fs : gmap string File
}.

Definition with_con (w : World) (c : Conn) : World :=
  {| con := c; fs := fs w |}.

(** [Path(p).exists()]. *)
Definition path_exists (files : gmap string File) (p : string) : bool :=
  bool_decide (is_Some (files !! p)).

(** ** scanner.py and the event handler's intake *)

(** Truth value of a Python float. *)
Definition truthy (x : Q) : bool := negb (Qeq_bool x 0).

Definition Qlt_bool (x y : Q) : bool := negb (Qle_bool y x).

(** [iter_files]: the files directly in [root], or anywhere below it when
    [recursive].  The order is the file map's enumeration order. *)
Definition iter_files (files : gmap string File) (root : string)
    (recursive : bool) : list string :=
  List.filter
    (fun p => if recursive
              then String.prefix (joinpath root "") p
              else String.eqb (anchor p) (joinpath root ""))
    (fst <$> map_to_list files).

(** scanner.py, [scan_once]:
    [cfg.settle_seconds and (now - st.st_mtime) < cfg.settle_seconds]. *)
Definition scan_too_new (cfg : Config) (now : Q) (st : File) : bool :=
  truthy (settle_seconds cfg)
  && Qlt_bool (now - st_mtime st) (settle_seconds cfg).

(** The body of [scan_once]'s inner loop for one path: the connection and
    the running count before and after. *)
Definition scan_file (cfg : Config) (files : gmap string File) (now : Q)
    (acc : Conn * Z) (p : string) : Conn * Z :=
  match files !! p with
  | None => acc                                  (* stat failed: continue *)
  | Some st =>
      if scan_too_new cfg now st
      then acc                                   (* too new: continue *)
      else ((upsert_file acc.1 p (path_name p) (st_size st) (st_mtime st) now).1,
            acc.2 + 1)
  end.

Definition scan_once (cfg : Config) (now : Q) (w : World) : World * Z :=
  let r :=
    foldl (fun acc folder =>
             foldl (scan_file cfg (fs w) now) acc
                   (iter_files (fs w) folder (recursive cfg)))
          (con w, 0) (watched_folders cfg) in
  (with_con w r.1, r.2).

(** watcher.py, [_Handler._intake]:
    [self._cfg.settle_seconds and (now - st.st_mtime) < self._cfg.settle_seconds]. *)
Definition intake_too_new (cfg : Config) (now : Q) (st : File) : bool :=
  truthy (settle_seconds cfg)
  && Qlt_bool (now - st_mtime st) (settle_seconds cfg).

(** watcher.py: [_Handler._intake]. *)
Definition intake (cfg : Config) (files : gmap string File) (now : Q)
    (c : Conn) (p : string) : Conn :=
  match files !! p with
  | None => c                                    (* stat failed: return *)
  | Some st =>
      if intake_too_new cfg now st
      then c                                     (* too new: return *)
      else (upsert_file c p (path_name p) (st_size st) (st_mtime st) now).1
  end.

(** watcher.py: [_Handler.on_created]. *)
Definition on_created (cfg : Config) (now : Q) (is_directory : bool)
    (src_path : string) (w : World) : World :=
  if is_directory then w
  else with_con w (intake cfg (fs w) now (con w) src_path).

(** watcher.py: [_Handler.on_moved]. *)
Definition on_moved (cfg : Config) (now : Q) (is_directory : bool)
    (src_path dest_path : string) (w : World) : World * result unit :=
  if is_directory then (w, Ok tt)
  else
    match get_item_by_path (con w) src_path with
    | Some _ =>
        match set_path_by_old_path (con w) src_path dest_path
                (path_name dest_path) with
        | Ok c => (with_con w c, Ok tt)
        | Raise e => (w, Raise e)
        end
    | None => (with_con w (intake cfg (fs w) now (con w) dest_path), Ok tt)
    end.

(** watcher.py: [_Handler.on_modified]: refresh without a settle check. *)
Definition on_modified (now : Q) (is_directory : bool) (src_path : string)
    (w : World) : World :=
  if is_directory then w
  else
    match fs w !! src_path with
    | None => w
    | Some st =>
        with_con w (upsert_file (con w) src_path (path_name src_path)
                      (st_size st) (st_mtime st) now).1
    end.

(** ** actions.py *)

(** The actions run in a state-and-exception monad over the world: a
    raised exception stops the action and keeps the effects done so far. *)
Definition M (A : Type) : Type := World -> World * result A.

Global Instance M_ret : MRet M := fun A a w => (w, Ok a).
Global Instance M_bind : MBind M := fun A B k m w =>
  match m w with
  | (w', Ok a) => k a w'
  | (w', Raise e) => (w', Raise e)
  end.

Definition raise {A : Type} (e : exn) : M A := fun w => (w, Raise e).

Definition db_read {A : Type} (q : Conn -> A) : M A :=
  fun w => (w, Ok (q (con w))).

Definition db_write (u : Conn -> Conn) : M unit :=
  fun w => (with_con w (u (con w)), Ok tt).

Definition db_try (u : Conn -> result Conn) : M unit :=
  fun w => match u (con w) with
           | Ok c => (with_con w c, Ok tt)
           | Raise e => (w, Raise e)
           end.

Definition exists_on_disk (p : string) : M bool :=
  fun w => (w, Ok (path_exists (fs w) p)).

(** [os.replace(src, dest)]: the file at [src] takes the place of whatever
    is at [dest]. *)
Definition os_replace (src dest : string) : M unit :=
  fun w => match fs w !! src with
           | Some f => ({| con := con w; fs := <[dest := f]> (delete src (fs w)) |},
                        Ok tt)
           | None => (w, Raise FileNotFoundError)
           end.

(** [assert item is not None; return item]. *)
Definition assert_some {A : Type} (o : option A) : M A :=
  match o with
  | Some a => mret a
  | None => raise AssertionError
  end.

Definition mark_reviewed (item_id : Z) (now : Q) : M Item :=
  item ← db_read (fun c => get_item c item_id);
  match item with
  | None => raise KeyError
  | Some _ =>
      db_write (fun c => set_status c item_id reviewed now);;
      item ← db_read (fun c => get_item c item_id);
      assert_some item
  end.

Definition reject (item_id : Z) (now : Q) : M Item :=
  item ← db_read (fun c => get_item c item_id);
  match item with
  | None => raise KeyError
  | Some _ =>
      db_write (fun c => set_status c item_id rejected now);;
      item ← db_read (fun c => get_item c item_id);
      assert_some item
  end.

(** The [i]-th alternative name, [f"{base}-{i}{ext}"] inside [dest_dir]. *)
Definition candidate (dest_dir filename : string) (i : Z) : string :=
  joinpath dest_dir (stem filename ++ "-" ++ pretty i ++ suffix filename).

(** The values of [range(1, 10_000)]. *)
Definition attempts : list Z := seqZ 1 9999.

(** [_unique_dest]; the directory it creates first is implicit. *)
Definition unique_dest (dest_dir filename : string) : M string :=
  taken ← exists_on_disk (joinpath dest_dir filename);
  if negb taken then mret (joinpath dest_dir filename)
  else
    fun w =>
      match find (fun i => negb (path_exists (fs w) (candidate dest_dir filename i)))
                 attempts with
      | Some i => (w, Ok (candidate dest_dir filename i))
      | None => (w, Raise RuntimeError)
      end.

Definition archive (cfg : Config) (item_id : Z) (now : Q) : M Item :=
  item ← db_read (fun c => get_item c item_id);
  match item with
  | None => raise KeyError
  | Some item =>
      let src := Item.path item in
      present ← exists_on_disk src;
      if negb present then
        db_write (fun c => set_status c item_id archived now);;
        item2 ← db_read (fun c => get_item c item_id);
        assert_some item2
      else
        dest ← unique_dest (archive_folder cfg) (path_name src);
        os_replace src dest;;
        db_try (fun c => set_path c item_id dest (path_name dest));;
        db_write (fun c => set_status c item_id archived now);;
        item2 ← db_read (fun c => get_item c item_id);
        assert_some item2
  end.

Definition rename (item_id : Z) (new_name : string) : M Item :=
  item ← db_read (fun c => get_item c item_id);
  match item with
  | None => raise KeyError
  | Some item =>
      let src := Item.path item in
      match with_name src new_name with
      | Raise e => raise e
      | Ok dest =>
          present ← exists_on_disk src;
          (if present : bool then os_replace src dest else mret tt);;
          db_try (fun c => set_path c item_id dest (path_name dest));;
          item2 ← db_read (fun c => get_item c item_id);
          assert_some item2
      end
  end.

(** ** Notions used to state the properties *)

(** The settle predicate in the specification's words: true when
    [settle_seconds <= 0] or [now - last_modified >= settle_seconds]. *)
Definition is_settled_spec (last_modified now settle_seconds : Q) : bool :=
  Qle_bool settle_seconds 0 || Qle_bool settle_seconds (now - last_modified).

(** The transition timestamp that belongs to a status; [new] has none. *)
Definition transition_at (s : Status) (r : Item) : option Q :=
  match s with
  | new => None
  | reviewed => Item.reviewed_at r
  | archived => Item.archived_at r
  | rejected => Item.rejected_at r
  end.

(** The sum of the values of a counter mapping. *)
Definition sum_counts (m : gmap string Z) : Z :=
  map_fold (fun _ v acc => v + acc) 0 m.

(** The arguments of one [upsert_file] call, with the clock reading. *)
Record Upsert : Type := mkUpsert {
  u_path : string;
  u_filename : string;
  u_size : Z;
  u_mtime : Q;
  u_now : Q
}.

Definition run_upserts (us : list Upsert) (c : Conn) : Conn :=
  foldl (fun c u => (upsert_file c (u_path u) (u_filename u) (u_size u)
                       (u_mtime u) (u_now u)).1) c us.

(** The arguments of one [set_status] call, with the clock reading. *)
Record Transition : Type := mkTransition {
  t_id : Z;
  t_status : Status;
  t_now : Q
}.

Definition run_transitions (ts : list Transition) (c : Conn) : Conn :=
  foldl (fun c t => set_status c (t_id t) (t_status t) (t_now t)) c ts.

(** The store states the program can be in: a new database, and whatever
    the store operations make of a reachable state.  (The actions change
    the store through these operations only.) *)
Inductive reachable : Conn -> Prop :=
  | reach_empty : reachable empty_db
  | reach_connect c : reachable c -> reachable (connect c)
  | reach_upsert c path filename size mtime now :
      reachable c ->
      reachable (upsert_file c path filename size mtime now).1
  | reach_set_status c item_id status now :
      reachable c -> reachable (set_status c item_id status now)
  | reach_set_path c item_id new_path new_filename c' :
      reachable c ->
      set_path c item_id new_path new_filename = Ok c' -> reachable c'
  | reach_set_path_by_old_path c old_path new_path new_filename c' :
      reachable c ->
      set_path_by_old_path c old_path new_path new_filename = Ok c' ->
      reachable c'
  | reach_add_tags c item_id tags :
      reachable c -> reachable (add_tags c item_id tags).

(** What holds of every reachable store: ids and paths are keys, and the
    AUTOINCREMENT counter bounds the ids. *)
Record store_ok (c : Conn) : Prop := mk_store_ok {
  ids_unique : NoDup (Item.id <$> items c);
  paths_unique : NoDup (Item.path <$> items c);
  ids_bounded : Forall (fun r => 0 < Item.id r <= sqlite_sequence c) (items c);
  last_bounded : 0 <= last_insert_rowid c <= sqlite_sequence c
}.

(** ** Sample states *)

Definition file_a : File := {| st_size := 3; st_mtime := 10%Q; data := "one" |}.
Definition file_b : File := {| st_size := 3; st_mtime := 11%Q; data := "two" |}.

Definition cfg0 : Config :=
  {| watched_folders := ["/d"; "/e"]; archive_folder := "/arc";
     poll_seconds := 2%Q; recursive := false; settle_seconds := 2%Q |}.

(** Two tracked files with the same name in two watched folders. *)
Definition two_folders : World :=
  {| con := (upsert_file (upsert_file empty_db "/d/a.txt" "a.txt" 3 10%Q 20%Q).1
                         "/e/a.txt" "a.txt" 3 11%Q 21%Q).1;
     fs := <["/d/a.txt" := file_a]> (<["/e/a.txt" := file_b]> ∅) |}.

(** The same store after both files were deleted behind its back. *)
Definition lost_files : World :=
  {| con := con two_folders; fs := ∅ |}.

(** Two tracked files in one folder. *)
Definition one_folder : World :=
  {| con := (upsert_file (upsert_file empty_db "/d/a.txt" "a.txt" 3 10%Q 20%Q).1
                         "/d/b.txt" "b.txt" 3 11%Q 21%Q).1;
     fs := <["/d/a.txt" := file_a]> (<["/d/b.txt" := file_b]> ∅) |}.




(** ** db.py: list_items *)

(** [ORDER BY first_seen DESC]: [a] may come before [b]. *)
Definition newer_first (a b : Item) : Prop :=
  (Item.first_seen b <= Item.first_seen a)%Q.

Global Instance newer_first_dec : RelDecision newer_first.
Proof.
  intros a b. unfold newer_first.
  destruct (Qlt_le_dec (Item.first_seen a) (Item.first_seen b)) as [H|H].
  - right. by apply Qlt_not_le.
  - by left.
Defined.

(** [SELECT * FROM items [WHERE status=?] ORDER BY first_seen DESC LIMIT ?
    OFFSET ?].  SQLite reads a negative LIMIT as no limit and a negative
    OFFSET as 0.  SQL leaves the order of rows with equal [first_seen]
    open; nothing below depends on the order the sort gives them. *)
Definition list_items (con : Conn) (status : option Status) (limit offset : Z)
    : list Item :=
  let rows :=
    match status with
    | None => items con
    | Some s => filter (fun r => Item.status r = s) (items con)
    end in
  let rest := drop (Z.to_nat offset) (merge_sort newer_first rows) in
  if (limit <? 0)%Z then rest else take (Z.to_nat limit) rest.

(** ** Notions used to state further properties *)

(** One store operation. *)
Inductive store_step : Conn -> Conn -> Prop :=
  | step_connect c : store_step c (connect c)
  | step_upsert c path filename size mtime now :
      store_step c (upsert_file c path filename size mtime now).1
  | step_set_status c item_id status now :
      store_step c (set_status c item_id status now)
  | step_set_path c item_id new_path new_filename c' :
      set_path c item_id new_path new_filename = Ok c' -> store_step c c'
  | step_set_path_by_old_path c old_path new_path new_filename c' :
      set_path_by_old_path c old_path new_path new_filename = Ok c' ->
      store_step c c'
  | step_add_tags c item_id tags : store_step c (add_tags c item_id tags).

(** Strictly before, in the order [sorted] puts strings in. *)
Definition str_lt (a b : string) : Prop := String.compare a b = Lt.

(** The paths one pass of [scan_once] visits, in order. *)
Definition scan_listing (cfg : Config) (files : gmap string File) : list string :=
  folder ← watched_folders cfg; iter_files files folder (recursive cfg).

(** The file at [p] is there and is not too new for the scanner. *)
Definition passes (cfg : Config) (files : gmap string File) (now : Q)
    (p : string) : bool :=
  match files !! p with
  | Some st => negb (scan_too_new cfg now st)
  | None => false
  end.

(** What every store operation keeps of an Item: its id, its first-seen
    time, and each transition timestamp that is set. *)
Definition keeps (a a' : Item) : Prop :=
  Item.id a' = Item.id a /\
  Item.first_seen a' = Item.first_seen a /\
  forall s t, transition_at s a = Some t -> transition_at s a' = Some t.

(** The store has an Item for the file at [p] with the file's size and
    mtime and the path's last component as filename. *)
Definition registered (c : Conn) (p : string) (st : File) : Prop :=
  exists it, get_item_by_path c p = Some it /\
             Item.size it = st_size st /\ Item.mtime it = st_mtime st /\
             Item.filename it = path_name p.

(** * Properties *)

Arguments unique_dest : simpl never.
Arguments attempts : simpl never.
Arguments candidate : simpl never.
Arguments joinpath : simpl never.
Arguments path_name : simpl never.
Arguments with_name : simpl never.

(** ** [find] on a table *)

Section find_facts.
Context {A : Type}.
Implicit Types (p : A -> bool) (l : list A).

Lemma find_fmap_stable p (g : A -> A) l :
  (forall x, p (g x) = p x) -> find p (g <$> l) = g <$> find p l.
Proof.
  intros Hp. induction l as [|x l IH]; simpl; [done|].
  rewrite Hp. by destruct (p x).
Qed.

Lemma find_None_elem p l :
  find p l = None <-> forall x, x ∈ l -> p x = false.
Proof.
  induction l as [|x l IH]; simpl.
  - split; [|done]. intros _ y Hy. by apply elem_of_nil in Hy.
  - destruct (p x) eqn:Hx.
    + split; [done|]. intros H. specialize (H x (list_elem_of_here _ _)).
      congruence.
    + rewrite IH. split.
      * intros H y Hy. apply elem_of_cons in Hy as [->|Hy]; auto.
      * intros H y Hy. apply H. by apply list_elem_of_further.
Qed.

Lemma find_Some_elem p l x : find p l = Some x -> x ∈ l /\ p x = true.
Proof.
  induction l as [|y l IH]; simpl; [done|].
  destruct (p y) eqn:Hy.
  - intros [= ->]. split; [apply list_elem_of_here | done].
  - intros H. destruct (IH H) as [? ?]. split; [by apply list_elem_of_further | done].
Qed.

Lemma find_app p l1 l2 :
  find p (l1 ++ l2) = match find p l1 with
                      | Some x => Some x
                      | None => find p l2
                      end.
Proof. induction l1 as [|x l1 IH]; simpl; [done|]. by destruct (p x). Qed.

Lemma existsb_find p l : existsb p l = bool_decide (is_Some (find p l)).
Proof.
  induction l as [|x l IH]; simpl; [done|].
  by destruct (p x).
Qed.

Lemma existsb_true_elem p l :
  existsb p l = true <-> exists x, x ∈ l /\ p x = true.
Proof.
  rewrite existsb_exists. split; intros (x & Hx & Hp); exists x;
    (split; [by apply list_elem_of_In | done]).
Qed.
End find_facts.

Lemma with_items_same c : with_items c (items c) = c.
Proof. by destruct c. Qed.

Lemma fmap_if_id {A} (sel : A -> bool) (g : A -> A) (l : list A) :
  (forall x, x ∈ l -> sel x = false) ->
  (fun r => if sel r then g r else r) <$> l = l.
Proof.
  intros H. induction l as [|x l IH]; simpl; [done|].
  rewrite (H x (list_elem_of_here _ _)). f_equal. apply IH.
  intros y Hy. apply H. by apply list_elem_of_further.
Qed.

Lemma has_path_true q r : has_path q r = true <-> Item.path r = q.
Proof. unfold has_path. apply String.eqb_eq. Qed.

Lemma has_path_false q r : has_path q r = false <-> Item.path r <> q.
Proof. unfold has_path. apply String.eqb_neq. Qed.

Lemma has_id_true i r : has_id i r = true <-> Item.id r = i.
Proof. unfold has_id. apply Z.eqb_eq. Qed.

Lemma has_id_false i r : has_id i r = false <-> Item.id r <> i.
Proof. unfold has_id. apply Z.eqb_neq. Qed.

(** ** The model at work *)

Example scan_once_two_folders :
  let r := scan_once cfg0 100%Q {| con := empty_db; fs := fs two_folders |} in
  r.2 = 2 /\
  Item.id <$> get_item_by_path (con r.1) "/d/a.txt" = Some 1 /\
  Item.id <$> get_item_by_path (con r.1) "/e/a.txt" = Some 2.
Proof. by vm_compute. Qed.

Example scan_once_too_new :
  scan_once cfg0 11%Q {| con := empty_db; fs := fs two_folders |}
  = ({| con := empty_db; fs := fs two_folders |}, 0).
Proof. by vm_compute. Qed.

Example scan_once_no_folders cfg now w :
  watched_folders cfg = [] -> scan_once cfg now w = (w, 0).
Proof. intros H. unfold scan_once. rewrite H. by destruct w. Qed.

Example on_moved_tracked :
  let r := on_moved cfg0 40%Q false "/d/a.txt" "/d/c.txt" one_folder in
  r.2 = Ok tt /\
  Item.filename <$> get_item_by_path (con r.1) "/d/c.txt" = Some "c.txt" /\
  get_item_by_path (con r.1) "/d/a.txt" = None.
Proof. by vm_compute. Qed.

Example add_tags_sorted :
  Item.tags <$> get_item (add_tags (con one_folder) 1 [" b "; "a"; ""; "b"]) 1
  = Some ["a"; "b"].
Proof. by vm_compute. Qed.

Example stem_suffix :
  (stem "a.tar.gz", suffix "a.tar.gz") = ("a.tar", ".gz") /\
  (stem ".bashrc", suffix ".bashrc") = (".bashrc", "") /\
  (stem "a.", suffix "a.") = ("a.", "") /\
  candidate "/arc" "a.tar.gz" 12 = "/arc/a.tar-12.gz" /\
  with_name "/d/x.txt" "y.txt" = Ok "/d/y.txt" /\
  with_name "/d/x.txt" "a/b" = Raise ValueError.
Proof. by vm_compute. Qed.

(** ** upsert_file *)

Lemma upsert_file_con c p f s m now :
  (upsert_file c p f s m now).1 = upsert_statement c p f s m now.
Proof. unfold upsert_file. by destruct (negb _). Qed.

Lemma upsert_statement_update c p f s m now it :
  get_item_by_path c p = Some it ->
  get_item_by_path (upsert_statement c p f s m now) p = Some (refresh f s m it).
Proof.
  intros Hit. unfold upsert_statement, get_item_by_path in *.
  rewrite existsb_find, Hit, bool_decide_eq_true_2 by eauto. simpl.
  rewrite find_fmap_stable, Hit; simpl.
  - apply find_Some_elem in Hit as [_ ->]. done.
  - intros x. by destruct (has_path p x) eqn:Hx.
Qed.

Lemma upsert_statement_insert c p f s m now :
  get_item_by_path c p = None ->
  get_item_by_path (upsert_statement c p f s m now) p
  = Some (fresh_row (sqlite_sequence c + 1) p f s m now).
Proof.
  intros Hit. unfold upsert_statement, get_item_by_path in *.
  rewrite existsb_find, Hit, bool_decide_eq_false_2 by (by intros [? ?]). simpl.
  rewrite find_app, Hit. simpl. unfold has_path. simpl.
  by rewrite String.eqb_refl.
Qed.

Lemma upsert_statement_other c p f s m now q :
  q <> p ->
  get_item_by_path (upsert_statement c p f s m now) q = get_item_by_path c q.
Proof.
  intros Hq. unfold upsert_statement, get_item_by_path.
  destruct (existsb _ _); simpl.
  - rewrite find_fmap_stable.
    + destruct (find (has_path q) (items c)) as [r|] eqn:Hr; simpl; [|done].
      apply find_Some_elem in Hr as [_ Hr]. apply has_path_true in Hr.
      assert (has_path p r = false) as -> by (apply has_path_false; congruence).
      done.
    + intros x. by destruct (has_path p x).
  - rewrite find_app. destruct (find _ _); [done|]. simpl.
    assert (has_path q (fresh_row (sqlite_sequence c + 1) p f s m now) = false)
      as -> by (by apply has_path_false).
    done.
Qed.

(** After the statement the row for the path is there, so the lookup in
    [upsert_file] never falls back on its default. *)
Lemma upsert_statement_present c p f s m now :
  is_Some (get_item_by_path (upsert_statement c p f s m now) p).
Proof.
  destruct (get_item_by_path c p) as [it|] eqn:Hit.
  - erewrite upsert_statement_update; eauto.
  - rewrite upsert_statement_insert; eauto.
Qed.

(** A fresh insert returns the identifier of the row it stores. *)
Lemma upsert_file_insert_id c p f s m now :
  get_item_by_path c p = None ->
  Item.id <$> get_item_by_path (upsert_file c p f s m now).1 p
  = Some (upsert_file c p f s m now).2.
Proof.
  intros Hit. rewrite upsert_file_con, upsert_statement_insert by done. simpl.
  unfold upsert_file.
  destruct (negb _) eqn:Hz; simpl.
  - unfold upsert_statement, get_item_by_path in *.
    rewrite existsb_find, Hit, bool_decide_eq_false_2 by (by intros [? ?]). done.
  - by rewrite upsert_statement_insert.
Qed.

(** An update returns the identifier of the stored row only on a connection
    that has not inserted anything yet; otherwise it returns the rowid of
    the connection's last insert. *)
Lemma upsert_file_update_id c p f s m now it :
  get_item_by_path c p = Some it ->
  (upsert_file c p f s m now).2
  = if (last_insert_rowid c =? 0)%Z then Item.id it else last_insert_rowid c.
Proof.
  intros Hit. unfold upsert_file.
  assert (last_insert_rowid (upsert_statement c p f s m now) = last_insert_rowid c)
    as Hl.
  { unfold upsert_statement, get_item_by_path in *.
    by rewrite existsb_find, Hit, bool_decide_eq_true_2 by eauto. }
  rewrite Hl. destruct (last_insert_rowid c =? 0)%Z; simpl; [|done].
  by erewrite upsert_statement_update by eauto.
Qed.

(** C1: on the connection that inserted ["/d/a.txt"] (id 1) and then
    ["/d/b.txt"] (id 2), the second upsert of ["/d/a.txt"] returns 2, the
    rowid of the last insert, whereas the Item stored for that path still
    has id 1. *)
Theorem upsert_file_returns_stale_rowid :
  let r1 := upsert_file empty_db "/d/a.txt" "a.txt" 3 10%Q 20%Q in
  let r2 := upsert_file r1.1 "/d/b.txt" "b.txt" 5 11%Q 21%Q in
  let r3 := upsert_file r2.1 "/d/a.txt" "a.txt" 4 12%Q 22%Q in
  r1.2 = 1 /\ r2.2 = 2 /\ r3.2 = 2 /\
  Item.id <$> get_item_by_path r3.1 "/d/a.txt" = Some 1.
Proof. vm_compute. done. Qed.

(** C2: an upsert of a path that has an Item changes filename, size and
    mtime of that Item and nothing else of it; an upsert of an unseen path
    stores an Item with status [new] and [first_seen = now], no transition
    timestamp and no tag; Items at other paths are left as they are. *)
Theorem upsert_file_frame (c : Conn) (path filename : string) (size : Z)
    (mtime now : Q) :
  let c' := (upsert_file c path filename size mtime now).1 in
  (forall it, get_item_by_path c path = Some it ->
     exists it', get_item_by_path c' path = Some it' /\
       Item.filename it' = filename /\ Item.size it' = size /\
       Item.mtime it' = mtime /\
       Item.id it' = Item.id it /\ Item.path it' = Item.path it /\
       Item.status it' = Item.status it /\
       Item.first_seen it' = Item.first_seen it /\
       Item.reviewed_at it' = Item.reviewed_at it /\
       Item.archived_at it' = Item.archived_at it /\
       Item.rejected_at it' = Item.rejected_at it /\
       Item.tags it' = Item.tags it) /\
  (get_item_by_path c path = None ->
     exists it', get_item_by_path c' path = Some it' /\
       Item.status it' = new /\ Item.first_seen it' = now /\
       Item.path it' = path /\ Item.filename it' = filename /\
       Item.size it' = size /\ Item.mtime it' = mtime /\
       Item.reviewed_at it' = None /\ Item.archived_at it' = None /\
       Item.rejected_at it' = None /\ Item.tags it' = []) /\
  (forall q, q <> path -> get_item_by_path c' q = get_item_by_path c q).
Proof.
  intros c'. subst c'. rewrite upsert_file_con. split; [|split].
  - intros it Hit. exists (refresh filename size mtime it).
    split; [by apply upsert_statement_update|]. by repeat split.
  - intros Hit.
    exists (fresh_row (sqlite_sequence c + 1) path filename size mtime now).
    split; [by apply upsert_statement_insert|]. by repeat split.
  - intros q Hq. by apply upsert_statement_other.
Qed.

(** The two branches on the sample store: a refresh of item 1, and a
    first upsert of ["/d/z.txt"]. *)
Lemma upsert_file_frame_witness :
  (exists it',
     get_item_by_path
       (upsert_file (con two_folders) "/d/a.txt" "a.txt" 9 12%Q 40%Q).1
       "/d/a.txt" = Some it' /\
     Item.size it' = 9 /\ Item.id it' = 1 /\ Item.status it' = new /\
     Item.first_seen it' = 20%Q) /\
  (exists it',
     get_item_by_path
       (upsert_file (con two_folders) "/d/z.txt" "z.txt" 9 12%Q 40%Q).1
       "/d/z.txt" = Some it' /\
     Item.status it' = new /\ Item.first_seen it' = 40%Q).
Proof.
  destruct (upsert_file_frame (con two_folders) "/d/a.txt" "a.txt" 9 12%Q 40%Q)
    as (Hupdate & _ & _).
  destruct (upsert_file_frame (con two_folders) "/d/z.txt" "z.txt" 9 12%Q 40%Q)
    as (_ & Hinsert & _).
  split.
  - destruct (Hupdate (fresh_row 1 "/d/a.txt" "a.txt" 3 10%Q 20%Q) eq_refl)
      as (it' & Hget & _ & Hsize & _ & Hid & _ & Hst & Hseen & _).
    exists it'. by repeat split.
  - destruct (Hinsert eq_refl) as (it' & Hget & Hst & Hseen & _).
    exists it'. by repeat split.
Defined.

(** ** set_status *)

Lemma has_id_apply_status i st now r : has_id i (apply_status st now r) = has_id i r.
Proof. done. Qed.

Lemma get_item_set_status c i st now j :
  get_item (set_status c i st now) j
  = (fun r => if has_id i r then apply_status st now r else r) <$> get_item c j.
Proof.
  unfold get_item, set_status. simpl. apply find_fmap_stable.
  intros x. by destruct (has_id i x).
Qed.

Lemma apply_status_twice st now later r :
  apply_status st later (apply_status st now r) = apply_status st now r.
Proof.
  destruct r as [? ? ? ? ? ? ? ra aa ja ?].
  unfold apply_status, coalesce, stamp; simpl.
  destruct st, ra, aa, ja; done.
Qed.

Lemma set_status_unknown c i st now :
  get_item c i = None -> set_status c i st now = c.
Proof.
  intros H. unfold set_status.
  rewrite fmap_if_id; [apply with_items_same|].
  by apply find_None_elem.
Qed.

(** C7: [set_status] on a known id sets the status; the transition
    timestamp of the target status becomes [now] when it was unset and is
    kept when it was set; the other transition timestamps and the other
    fields stay.  A second call with the same target changes nothing at
    all, and a call on an unknown id leaves the store as it is. *)
Theorem set_status_first_write_wins (c : Conn) (item_id : Z) (st : Status)
    (now later : Q) :
  (forall it, get_item c item_id = Some it ->
     exists it', get_item (set_status c item_id st now) item_id = Some it' /\
       Item.status it' = st /\
       (st <> new -> transition_at st it = None ->
          transition_at st it' = Some now) /\
       (forall t, transition_at st it = Some t ->
          transition_at st it' = Some t) /\
       (forall s, s <> st -> transition_at s it' = transition_at s it) /\
       Item.id it' = Item.id it /\ Item.path it' = Item.path it /\
       Item.filename it' = Item.filename it /\ Item.size it' = Item.size it /\
       Item.mtime it' = Item.mtime it /\
       Item.first_seen it' = Item.first_seen it /\
       Item.tags it' = Item.tags it) /\
  set_status (set_status c item_id st now) item_id st later
  = set_status c item_id st now /\
  (get_item c item_id = None -> set_status c item_id st now = c).
Proof.
  split; [|split].
  - intros it Hit. exists (apply_status st now it). split.
    { rewrite get_item_set_status, Hit. simpl.
      apply find_Some_elem in Hit as [_ ->]. done. }
    split; [done|].
    destruct it as [? ? ? ? ? ? ? ra aa ja ?].
    unfold transition_at, apply_status, coalesce, stamp; simpl.
    repeat split.
    + intros Hn Hu. destruct st; try done; simpl in *; by rewrite Hu.
    + intros t Ht. destruct st; try done; simpl in *; by rewrite Ht.
    + intros s Hs. destruct s, st; try done; simpl;
        by repeat match goal with |- context [match ?o with _ => _ end] =>
                    destruct o end.
  - unfold set_status, with_items. simpl. f_equal.
    rewrite <- list_fmap_compose. apply list_fmap_ext. intros _ r _.
    unfold compose. destruct (has_id item_id r) eqn:Hr.
    + rewrite has_id_apply_status, Hr. apply apply_status_twice.
    + by rewrite Hr.
  - apply set_status_unknown.
Qed.

(** [set_status] at work on a stored item: reviewed at 30, again at 40. *)
Lemma set_status_first_write_wins_witness :
  exists it',
    get_item (set_status (con two_folders) 1 reviewed 30%Q) 1 = Some it' /\
    Item.status it' = reviewed /\ Item.reviewed_at it' = Some 30%Q /\
    Item.reviewed_at
      <$> get_item (set_status (set_status (con two_folders) 1 reviewed 30%Q)
                               1 reviewed 40%Q) 1
    = Some (Some 30%Q) /\
    set_status (con two_folders) 7 reviewed 30%Q = con two_folders.
Proof.
  destruct (set_status_first_write_wins (con two_folders) 1 reviewed 30%Q 40%Q)
    as (Hset & Htwice & _).
  destruct (set_status_first_write_wins (con two_folders) 7 reviewed 30%Q 40%Q)
    as (_ & _ & Hunknown).
  destruct (Hset _ eq_refl) as (it' & Hget & Hst & Hnow & _).
  exists it'. split; [exact Hget|]. split; [exact Hst|].
  split; [apply Hnow; [discriminate | reflexivity]|].
  split; [rewrite Htwice, Hget; simpl; f_equal;
          apply Hnow; [discriminate | reflexivity]|].
  apply Hunknown. reflexivity.
Defined.

(** ** The actions *)

(** Unfold the monad, and nothing below it. *)
Ltac run :=
  unfold mark_reviewed, reject, archive, rename, mbind, M_bind, mret, M_ret,
    db_read, db_write, db_try, raise, exists_on_disk, os_replace, assert_some;
  cbv beta iota zeta.

Ltac step := cbn [negb fst snd con fs with_con].


Lemma get_item_known_set_status c i st now it :
  get_item c i = Some it ->
  get_item (set_status c i st now) i = Some (apply_status st now it).
Proof.
  intros Hit. rewrite get_item_set_status, Hit. simpl.
  apply find_Some_elem in Hit as [_ ->]. done.
Qed.

Lemma path_exists_true files p f : files !! p = Some f -> path_exists files p = true.
Proof. intros H. unfold path_exists. apply bool_decide_eq_true. eauto. Qed.

Lemma path_exists_false files p : files !! p = None -> path_exists files p = false.
Proof.
  intros H. unfold path_exists. apply bool_decide_eq_false. rewrite H.
  by intros [? ?].
Qed.



(** C5: when the recorded source path is not on disk, [archive] sets the
    status to [archived] and returns the updated Item; the file system is
    untouched and the stored path and filename stay. *)
Theorem archive_missing_source (cfg : Config) (item_id : Z) (now : Q)
    (w : World) (it : Item) :
  get_item (con w) item_id = Some it ->
  fs w !! Item.path it = None ->
  exists it',
    archive cfg item_id now w
    = (with_con w (set_status (con w) item_id archived now), Ok it') /\
    get_item (con (archive cfg item_id now w).1) item_id = Some it' /\
    fs (archive cfg item_id now w).1 = fs w /\
    Item.status it' = archived /\
    Item.path it' = Item.path it /\ Item.filename it' = Item.filename it.
Proof.
  intros Hit Hfs. exists (apply_status archived now it).
  assert (archive cfg item_id now w
          = (with_con w (set_status (con w) item_id archived now),
             Ok (apply_status archived now it))) as Hrun.
  { run. rewrite Hit. simpl. rewrite (path_exists_false _ _ Hfs). simpl.
    by rewrite (get_item_known_set_status _ _ _ _ _ Hit). }
  rewrite Hrun. simpl. repeat split.
  by apply get_item_known_set_status.
Qed.

Lemma archive_missing_source_witness :
  exists it',
    archive cfg0 2 30%Q lost_files
    = (with_con lost_files (set_status (con lost_files) 2 archived 30%Q),
       Ok it') /\
    get_item (con (archive cfg0 2 30%Q lost_files).1) 2 = Some it' /\
    fs (archive cfg0 2 30%Q lost_files).1 = fs lost_files /\
    Item.status it' = archived /\
    Item.path it' = Item.path (fresh_row 2 "/e/a.txt" "a.txt" 3 11%Q 21%Q) /\
    Item.filename it'
    = Item.filename (fresh_row 2 "/e/a.txt" "a.txt" 3 11%Q 21%Q).
Proof.
  exact (archive_missing_source cfg0 2 30%Q lost_files
           (fresh_row 2 "/e/a.txt" "a.txt" 3 11%Q 21%Q) eq_refl eq_refl).
Defined.

(** ** The settle check *)

Lemma Qlt_bool_iff x y : Qlt_bool x y = true <-> (x < y)%Q.
Proof.
  unfold Qlt_bool. rewrite negb_true_iff, <- not_true_iff_false, Qle_bool_iff.
  split; [apply Qnot_le_lt | apply Qlt_not_le].
Qed.

Lemma truthy_false x : truthy x = false <-> (x == 0)%Q.
Proof. unfold truthy. by rewrite negb_false_iff, Qeq_bool_iff. Qed.

Lemma is_settled_spec_iff last_modified now settle :
  is_settled_spec last_modified now settle = true
  <-> (settle <= 0)%Q \/ (settle <= now - last_modified)%Q.
Proof. unfold is_settled_spec. by rewrite orb_true_iff, !Qle_bool_iff. Qed.

Lemma scan_too_new_false cfg now st :
  scan_too_new cfg now st = false
  <-> (settle_seconds cfg == 0)%Q
      \/ (settle_seconds cfg <= now - st_mtime st)%Q.
Proof.
  unfold scan_too_new. rewrite andb_false_iff, truthy_false.
  rewrite <- not_true_iff_false, Qlt_bool_iff.
  split; (intros [H|H]; [by left | right]).
  - by apply Qnot_lt_le.
  - by apply Qle_not_lt.
Qed.

(** For a threshold that is not negative the check in the code is the
    predicate of the specification. *)
Lemma scan_settled_spec_nonneg cfg now st :
  (0 <= settle_seconds cfg)%Q ->
  negb (scan_too_new cfg now st)
  = is_settled_spec (st_mtime st) now (settle_seconds cfg).
Proof.
  intros Hpos. apply eq_true_iff_eq.
  rewrite negb_true_iff, scan_too_new_false, is_settled_spec_iff.
  split; (intros [H|H]; [left | by right]).
  - rewrite H. apply Qle_refl.
  - by apply Qle_antisym.
Qed.




(** ** counts_by_status *)

Lemma count_status_total rows :
  count_status new rows + count_status reviewed rows
  + count_status archived rows + count_status rejected rows
  = Z.of_nat (length rows).
Proof.
  unfold count_status. induction rows as [|r rows IH]; [done|].
  rewrite !filter_cons. simpl length.
  destruct (Item.status r); repeat case_decide; try done; simpl length; lia.
Qed.

Lemma count_status_none s rows :
  (forall r, r ∈ rows -> Item.status r <> s) -> count_status s rows = 0.
Proof.
  intros H. unfold count_status.
  induction rows as [|r rows IH]; [done|].
  rewrite filter_cons_False by (apply H, list_elem_of_here).
  apply IH. intros r' Hr'. apply H. by apply list_elem_of_further.
Qed.

Ltac split_counts :=
  unfold counts_by_status, group_by_status, all_statuses; simpl;
  repeat match goal with
         | |- context [(?x =? 0)%Z] => destruct (Z.eqb_spec x 0)
         end; simpl.

Lemma counts_by_status_lookup c s :
  counts_by_status c !! status_text s = Some (count_status s (items c)).
Proof.
  split_counts; destruct s; simpl; simplify_map_eq; congruence.
Qed.

Lemma counts_by_status_dom c :
  dom (counts_by_status c)
  = ({[ "new"; "reviewed"; "archived"; "rejected" ]} : gset string).
Proof.
  split_counts; rewrite !dom_insert_L, dom_empty_L; set_solver.
Qed.

Lemma counts_by_status_canonical c :
  counts_by_status c
  = <["new" := count_status new (items c)]>
      (<["reviewed" := count_status reviewed (items c)]>
         (<["archived" := count_status archived (items c)]>
            (<["rejected" := count_status rejected (items c)]> ∅))).
Proof.
  apply map_eq. intros k.
  pose proof (counts_by_status_lookup c new) as Hnew.
  pose proof (counts_by_status_lookup c reviewed) as Hreviewed.
  pose proof (counts_by_status_lookup c archived) as Harchived.
  pose proof (counts_by_status_lookup c rejected) as Hrejected.
  simpl in Hnew, Hreviewed, Harchived, Hrejected.
  destruct (decide (k = "new")) as [->|Hn];
    [rewrite Hnew; by simplify_map_eq|].
  destruct (decide (k = "reviewed")) as [->|Hr];
    [rewrite Hreviewed; by simplify_map_eq|].
  destruct (decide (k = "archived")) as [->|Ha];
    [rewrite Harchived; by simplify_map_eq|].
  destruct (decide (k = "rejected")) as [->|Hj];
    [rewrite Hrejected; by simplify_map_eq|].
  rewrite !lookup_insert_ne, lookup_empty by done.
  apply not_elem_of_dom. rewrite counts_by_status_dom.
  rewrite !elem_of_union, !elem_of_singleton. tauto.
Qed.

Lemma sum_counts_rows c :
  sum_counts (counts_by_status c) = Z.of_nat (length (items c)).
Proof.
  rewrite counts_by_status_canonical, <- count_status_total. unfold sum_counts.
  rewrite !map_fold_insert_L, map_fold_empty;
    try (intros; lia); by simplify_map_eq.
Qed.

Lemma run_transitions_length ts c :
  length (items (run_transitions ts c)) = length (items c).
Proof.
  revert c. induction ts as [|t ts IH]; intros c; [done|].
  simpl. rewrite IH. unfold set_status. simpl. apply length_fmap.
Qed.

Lemma run_upserts_length us c :
  NoDup (u_path <$> us) ->
  (forall u, u ∈ us -> get_item_by_path c (u_path u) = None) ->
  length (items (run_upserts us c)) = (length (items c) + length us)%nat.
Proof.
  revert c. induction us as [|u us IH]; intros c Hnd Hnew; [simpl; lia|].
  rewrite fmap_cons in Hnd. apply NoDup_cons in Hnd as [Hu Hnd].
  change (run_upserts (u :: us) c)
    with (run_upserts us (upsert_file c (u_path u) (u_filename u) (u_size u)
                            (u_mtime u) (u_now u)).1).
  rewrite IH; [| done |].
  - pose proof (Hnew u (list_elem_of_here _ _)) as Hnone.
    rewrite upsert_file_con.
    unfold upsert_statement, get_item_by_path in *.
    rewrite existsb_find, Hnone, bool_decide_eq_false_2 by (by intros [? ?]).
    simpl. rewrite length_app. simpl. lia.
  - intros u' Hu'. rewrite upsert_file_con, upsert_statement_other.
    + apply Hnew. by apply list_elem_of_further.
    + intros Heq. apply Hu. rewrite <- Heq. by apply list_elem_of_fmap_2.
Qed.

(** C9: [counts_by_status] has exactly the four status keys, each with the
    number of items in that status (0 when there is none), and after
    upserting N distinct paths into a new database and any sequence of
    [set_status] calls the four counts add up to N. *)
Theorem counts_by_status_total (c : Conn) (us : list Upsert)
    (ts : list Transition) :
  dom (counts_by_status c)
  = ({[ "new"; "reviewed"; "archived"; "rejected" ]} : gset string) /\
  (forall s, counts_by_status c !! status_text s
             = Some (count_status s (items c))) /\
  (forall s, (forall r, r ∈ items c -> Item.status r <> s) ->
             counts_by_status c !! status_text s = Some 0) /\
  (NoDup (u_path <$> us) ->
   sum_counts (counts_by_status (run_transitions ts (run_upserts us empty_db)))
   = Z.of_nat (length us)).
Proof.
  split; [apply counts_by_status_dom|].
  split; [apply counts_by_status_lookup|]. split.
  - intros s Hs. by rewrite counts_by_status_lookup, count_status_none.
  - intros Hnd. rewrite sum_counts_rows, run_transitions_length.
    by rewrite run_upserts_length.
Qed.

Lemma counts_by_status_total_witness :
  let us := [mkUpsert "/d/a.txt" "a.txt" 3 10%Q 20%Q;
             mkUpsert "/d/b.txt" "b.txt" 5 11%Q 21%Q;
             mkUpsert "/d/c.txt" "c.txt" 7 12%Q 22%Q] in
  let ts := [mkTransition 1 reviewed 30%Q; mkTransition 3 rejected 31%Q;
             mkTransition 1 archived 32%Q] in
  let c := run_transitions ts (run_upserts us empty_db) in
  counts_by_status c !! "reviewed" = Some 0 /\
  sum_counts (counts_by_status c) = 3.
Proof.
  intros us ts c.
  destruct (counts_by_status_total c us ts) as (_ & _ & Hzero & Hsum).
  split.
  - apply (Hzero reviewed). apply Forall_forall. vm_compute.
    repeat (constructor; [by intros [=]|]). constructor.
  - apply Hsum. apply (bool_decide_unpack _). by vm_compute.
Defined.

(** ** Reachable stores keep ids and paths unique *)

Lemma fmap_proj_stable {B} (proj : Item -> B) (g : Item -> Item) (l : list Item) :
  (forall r, proj (g r) = proj r) -> proj <$> (g <$> l) = proj <$> l.
Proof.
  intros H. rewrite <- list_fmap_compose. apply list_fmap_ext.
  intros _ r _. apply H.
Qed.

Lemma store_ok_empty : store_ok empty_db.
Proof. split; simpl; [apply NoDup_nil_2 | apply NoDup_nil_2 | done | lia]. Qed.

Lemma store_ok_connect c : store_ok c -> store_ok (connect c).
Proof. intros [? ? ? ?]. split; simpl; [done | done | done | lia]. Qed.

(** An update that leaves id and path of every row alone. *)
Lemma store_ok_fmap c (g : Item -> Item) :
  (forall r, Item.id (g r) = Item.id r) ->
  (forall r, Item.path (g r) = Item.path r) ->
  store_ok c -> store_ok (with_items c (g <$> items c)).
Proof.
  intros Hid Hpath [? ? Hb ?]. split; simpl.
  - by rewrite fmap_proj_stable.
  - by rewrite fmap_proj_stable.
  - apply Forall_fmap. eapply Forall_impl; [exact Hb|].
    intros r Hr. simpl in *. by rewrite Hid.
  - done.
Qed.

Lemma store_ok_set_status c i st now : store_ok c -> store_ok (set_status c i st now).
Proof.
  intros H. unfold set_status. apply (store_ok_fmap c); [| |done];
    intros r; by destruct (has_id i r).
Qed.

Lemma store_ok_add_tags c i ts : store_ok c -> store_ok (add_tags c i ts).
Proof.
  intros H. unfold add_tags. destruct (get_item c i); [|done].
  apply (store_ok_fmap c); [| |done]; intros r; by destruct (has_id i r).
Qed.

Lemma store_ok_upsert c p f s m now :
  store_ok c -> store_ok (upsert_file c p f s m now).1.
Proof.
  intros [Hi Hp Hb Hl]. rewrite upsert_file_con. unfold upsert_statement.
  destruct (existsb (has_path p) (items c)) eqn:Hex; split; simpl.
  - rewrite fmap_proj_stable; [done|]. intros r. by destruct (has_path p r).
  - rewrite fmap_proj_stable; [done|]. intros r. by destruct (has_path p r).
  - apply Forall_fmap. eapply Forall_impl; [exact Hb|].
    intros r Hr. simpl in *. destruct (has_path p r); simpl; lia.
  - lia.
  - rewrite fmap_app. apply NoDup_app. split; [done|]. split.
    + intros x Hx Hx'. simpl in Hx'. apply list_elem_of_singleton in Hx'.
      apply list_elem_of_fmap in Hx as (r & -> & Hr).
      rewrite Forall_forall in Hb. specialize (Hb r Hr). lia.
    + apply NoDup_singleton.
  - rewrite fmap_app. apply NoDup_app. split; [done|]. split.
    + intros x Hx Hx'. simpl in Hx'. apply list_elem_of_singleton in Hx'.
      apply list_elem_of_fmap in Hx as (r & -> & Hr).
      assert (existsb (has_path p) (items c) = true) as Ht; [|congruence].
      apply existsb_true_elem. exists r. split; [done|].
      by apply has_path_true.
    + apply NoDup_singleton.
  - apply Forall_app. split.
    + eapply Forall_impl; [exact Hb|]. intros r Hr. simpl in *. lia.
    + apply Forall_singleton. simpl. lia.
  - lia.
Qed.

Lemma filter_nil_elem (sel : Item -> bool) (l : list Item) :
  filter (fun r => sel r = true) l = [] -> forall r, r ∈ l -> sel r = false.
Proof.
  intros H r Hr. destruct (sel r) eqn:Hs; [|done].
  assert (r ∈ filter (fun r => sel r = true) l) as Hin
    by (by apply list_elem_of_filter).
  rewrite H in Hin. by apply elem_of_nil in Hin.
Qed.

Lemma update_path_nodup (sel : Item -> bool) np nf (l : list Item) :
  NoDup (Item.path <$> l) ->
  (forall r, r ∈ l -> sel r = false -> Item.path r <> np) ->
  (length (filter (fun r => sel r = true) l) <= 1)%nat ->
  NoDup (Item.path <$> ((fun r => if sel r then move_row np nf r else r) <$> l)).
Proof.
  induction l as [|r l IH]; intros Hnd Hother Hlen; [done|].
  rewrite !fmap_cons in *. apply NoDup_cons in Hnd as [Hr Hnd].
  rewrite filter_cons in Hlen.
  assert (forall r', r' ∈ l -> sel r' = false -> Item.path r' <> np) as Hother'
    by (intros r' Hr'; apply Hother; by apply list_elem_of_further).
  destruct (sel r) eqn:Hs.
  - rewrite decide_True in Hlen by done. simpl in Hlen.
    assert (filter (fun r => sel r = true) l = []) as Hnil
      by (apply nil_length_inv; lia).
    pose proof (filter_nil_elem _ _ Hnil) as Hnone.
    rewrite fmap_if_id by done. apply NoDup_cons. split; [|done].
    simpl. intros Hin. apply list_elem_of_fmap in Hin as (r' & Heq & Hr').
    by apply (Hother' r' Hr' (Hnone r' Hr')).
  - rewrite decide_False in Hlen by congruence.
    apply NoDup_cons. split; [|by apply IH].
    intros Hin. apply list_elem_of_fmap in Hin as (r' & Heq & Hr').
    apply list_elem_of_fmap in Hr' as (r'' & -> & Hr'').
    destruct (sel r'') eqn:Hs''; simpl in Heq.
    + apply (Hother r (list_elem_of_here _ _) Hs). done.
    + apply Hr. rewrite Heq. by apply list_elem_of_fmap_2.
Qed.

Lemma update_path_ok sel np nf c c' :
  update_path sel np nf c = Ok c' ->
  c' = with_items c ((fun r => if sel r then move_row np nf r else r) <$> items c)
  /\ (filter (fun r => sel r = true) (items c) = []
      \/ (forall r, r ∈ items c -> sel r = false -> Item.path r <> np)
         /\ (length (filter (fun r => sel r = true) (items c)) <= 1)%nat).
Proof.
  unfold update_path. intros H.
  destruct (negb _ && _) eqn:Hc; [done|]. injection H as <-. split; [done|].
  apply andb_false_iff in Hc as [Hc|Hc].
  - left. apply negb_false_iff, bool_decide_eq_true in Hc. done.
  - right. apply orb_false_iff in Hc as [Hex Hlen]. split.
    + intros r Hr Hs Hp.
      assert (existsb (fun r => negb (sel r) && has_path np r) (items c) = true)
        as Ht; [|congruence].
      apply existsb_true_elem. exists r. split; [done|].
      rewrite Hs. simpl. by apply has_path_true.
    + apply Z.ltb_ge in Hlen. lia.
Qed.

Lemma store_ok_update_path sel np nf c c' :
  store_ok c -> update_path sel np nf c = Ok c' -> store_ok c'.
Proof.
  intros [Hi Hp Hb Hl] H. apply update_path_ok in H as [-> Hcase].
  split; simpl.
  - rewrite fmap_proj_stable; [done|]. intros r. by destruct (sel r).
  - destruct Hcase as [Hnil|[Hother Hlen]].
    + rewrite fmap_if_id; [done|]. by apply filter_nil_elem.
    + by apply update_path_nodup.
  - apply Forall_fmap. eapply Forall_impl; [exact Hb|].
    intros r Hr. simpl in *. by destruct (sel r).
  - done.
Qed.

Lemma reachable_store_ok c : reachable c -> store_ok c.
Proof.
  induction 1 as [| | | | c i np nf c' _ IH Hset
                  | c old np nf c' _ IH Hset |].
  - apply store_ok_empty.
  - by apply store_ok_connect.
  - by apply store_ok_upsert.
  - by apply store_ok_set_status.
  - eapply store_ok_update_path; [exact IH|exact Hset].
  - eapply store_ok_update_path; [exact IH|exact Hset].
  - by apply store_ok_add_tags.
Qed.

Lemma get_item_by_path_unique (l : list Item) (a : Item) :
  NoDup (Item.path <$> l) -> a ∈ l ->
  find (has_path (Item.path a)) l = Some a.
Proof.
  induction l as [|r l IH]; intros Hnd Ha; [by apply elem_of_nil in Ha|].
  rewrite fmap_cons in Hnd. apply NoDup_cons in Hnd as [Hr Hnd]. simpl.
  apply elem_of_cons in Ha as [->|Ha].
  - unfold has_path. by rewrite String.eqb_refl.
  - destruct (has_path (Item.path a) r) eqn:Hp; [|by apply IH].
    apply has_path_true in Hp. exfalso. apply Hr. rewrite Hp.
    by apply list_elem_of_fmap_2.
Qed.

Lemma update_path_clash sel np nf c a b :
  a ∈ items c -> sel a = true ->
  b ∈ items c -> sel b = false -> Item.path b = np ->
  update_path sel np nf c = Raise IntegrityError.
Proof.
  intros Ha Hsa Hb Hsb Hp. unfold update_path.
  assert (existsb (fun r => negb (sel r) && has_path np r) (items c) = true)
    as ->.
  { apply existsb_true_elem. exists b. split; [done|].
    rewrite Hsb. simpl. by apply has_path_true. }
  rewrite bool_decide_eq_false_2; [done|].
  intros Hnil. pose proof (filter_nil_elem _ _ Hnil a Ha). congruence.
Qed.

Lemma set_path_clash c i np nf a b :
  get_item c i = Some a -> b ∈ items c -> Item.id b <> i -> Item.path b = np ->
  set_path c i np nf = Raise IntegrityError.
Proof.
  intros Ha Hb Hi Hp. apply find_Some_elem in Ha as [Ha Hsa].
  apply (update_path_clash _ _ _ _ a b); try done. by apply has_id_false.
Qed.

Lemma rename_clash w i name a dest b :
  get_item (con w) i = Some a ->
  with_name (Item.path a) name = Ok dest ->
  b ∈ items (con w) -> Item.id b <> i -> Item.path b = dest ->
  (rename i name w).2 = Raise IntegrityError /\ con (rename i name w).1 = con w.
Proof.
  intros Ha Hd Hb Hi Hp. run. rewrite Ha. step. rewrite Hd. step.
  destruct (fs w !! Item.path a) as [f|] eqn:Hf.
  - rewrite (path_exists_true _ _ _ Hf). step. rewrite ?Hf. step.
    by rewrite (set_path_clash _ _ _ _ _ _ Ha Hb Hi Hp).
  - rewrite (path_exists_false _ _ Hf). step.
    by rewrite (set_path_clash _ _ _ _ _ _ Ha Hb Hi Hp).
Qed.

(** C10: in every reachable store no two Items have the same path, and a
    lookup by path finds the one Item that has it.  The store refuses
    whatever would break this: [set_path] and [rename] on a known Item, and
    [set_path_by_old_path] on a tracked path, raise [IntegrityError] when a
    different Item holds the target path, and the table is as before. *)
Theorem path_uniqueness_enforced :
  (forall c, reachable c ->
     NoDup (Item.path <$> items c) /\
     forall a, a ∈ items c -> get_item_by_path c (Item.path a) = Some a) /\
  (forall w item_id new_path new_filename a b,
     get_item (con w) item_id = Some a ->
     b ∈ items (con w) -> Item.id b <> item_id -> Item.path b = new_path ->
     set_path (con w) item_id new_path new_filename = Raise IntegrityError /\
     db_try (fun c => set_path c item_id new_path new_filename) w
     = (w, Raise IntegrityError)) /\
  (forall w old_path new_path new_filename a b,
     get_item_by_path (con w) old_path = Some a ->
     b ∈ items (con w) -> Item.path b <> old_path -> Item.path b = new_path ->
     set_path_by_old_path (con w) old_path new_path new_filename
     = Raise IntegrityError /\
     db_try (fun c => set_path_by_old_path c old_path new_path new_filename) w
     = (w, Raise IntegrityError)) /\
  (forall w item_id new_name a dest b,
     get_item (con w) item_id = Some a ->
     with_name (Item.path a) new_name = Ok dest ->
     b ∈ items (con w) -> Item.id b <> item_id -> Item.path b = dest ->
     (rename item_id new_name w).2 = Raise IntegrityError /\
     con (rename item_id new_name w).1 = con w).
Proof.
  split; [|split; [|split]].
  - intros c Hc. apply reachable_store_ok in Hc as [_ Hp _ _].
    split; [done|]. intros a Ha. by apply get_item_by_path_unique.
  - intros w i np nf a b Ha Hb Hi Hp.
    pose proof (set_path_clash _ _ _ nf _ _ Ha Hb Hi Hp) as Hraise.
    split; [done|]. unfold db_try. by rewrite Hraise.
  - intros w old np nf a b Ha Hb Hold Hp.
    apply find_Some_elem in Ha as [Ha Hsa].
    assert (set_path_by_old_path (con w) old np nf = Raise IntegrityError)
      as Hraise.
    { apply (update_path_clash _ _ _ _ a b); try done.
      by apply has_path_false. }
    split; [done|]. unfold db_try. by rewrite Hraise.
  - intros w i name a dest b. apply rename_clash.
Qed.

Lemma reachable_one_folder : reachable (con one_folder).
Proof. apply reach_upsert, reach_upsert, reach_empty. Qed.

Lemma path_uniqueness_enforced_witness :
  NoDup (Item.path <$> items (con one_folder)) /\
  set_path (con one_folder) 1 "/d/b.txt" "b.txt" = Raise IntegrityError /\
  set_path_by_old_path (con one_folder) "/d/a.txt" "/d/b.txt" "b.txt"
  = Raise IntegrityError /\
  (rename 1 "b.txt" one_folder).2 = Raise IntegrityError /\
  con (rename 1 "b.txt" one_folder).1 = con one_folder.
Proof.
  destruct path_uniqueness_enforced as (Hinv & Hset & Hold & Hren).
  pose (row_a := fresh_row 1 "/d/a.txt" "a.txt" 3 10%Q 20%Q).
  pose (row_b := fresh_row 2 "/d/b.txt" "b.txt" 3 11%Q 21%Q).
  assert (row_b ∈ items (con one_folder)) as Hb
    by (apply list_elem_of_further, list_elem_of_here).
  split; [apply (Hinv _ reachable_one_folder)|].
  split.
  { apply (Hset one_folder 1 "/d/b.txt" "b.txt" row_a row_b);
      [reflexivity | exact Hb | simpl; lia | reflexivity]. }
  split.
  { apply (Hold one_folder "/d/a.txt" "/d/b.txt" "b.txt" row_a row_b);
      [reflexivity | exact Hb | discriminate | reflexivity]. }
  apply (Hren one_folder 1 "b.txt" row_a "/d/b.txt" row_b);
    [reflexivity | reflexivity | exact Hb | simpl; lia | reflexivity].
Defined.

(** ** Paths and names *)

Lemma has_char_app p s x : has_char p (s ++ x) = has_char p s || has_char p x.
Proof.
  induction s as [|c s IH]; simpl; [done|]. rewrite IH. by destruct (p c).
Qed.

Lemma after_last_id p x : has_char p x = false -> after_last p x = x.
Proof. destruct x as [|c x]; simpl; [done|]. by intros ->. Qed.

Lemma after_last_clean p s : has_char p (after_last p s) = false.
Proof.
  induction s as [|c s IH]; [done|].
  cbn [after_last]. destruct (has_char p (String c s)) eqn:H; done.
Qed.

Lemma after_last_app p s x :
  has_char p x = false -> has_char p s = true ->
  after_last p (s ++ x) = after_last p s ++ x.
Proof.
  intros Hx. induction s as [|c s IH]; [done|]. intros Hs.
  change (String c s ++ x) with (String c (s ++ x)).
  cbn [after_last]. rewrite Hs.
  assert (has_char p (String c (s ++ x)) = true) as ->.
  { change (String c (s ++ x)) with (String c s ++ x).
    by rewrite has_char_app, Hs. }
  destruct (has_char p s) eqn:Hs'; [by apply IH|].
  rewrite !after_last_id; [done | done |].
  by rewrite has_char_app, Hs', Hx.
Qed.

Lemma after_last_sep_app p s c x :
  has_char p x = false -> p c = true -> after_last p (s ++ String c x) = x.
Proof.
  intros Hx Hc. induction s as [|a s IH].
  - simpl. rewrite Hc. simpl. by apply after_last_id.
  - change (String a s ++ String c x) with (String a (s ++ String c x)).
    cbn [after_last].
    assert (has_char p (String a (s ++ String c x)) = true) as ->; [|done].
    simpl. rewrite has_char_app. simpl. rewrite Hc.
    by rewrite !orb_true_r.
Qed.

Lemma before_last_clean p q s :
  has_char p s = false -> has_char p (before_last q s) = false.
Proof.
  induction s as [|c s IH]; [done|]. simpl.
  intros H. apply orb_false_iff in H as [Hc Hs].
  destruct (has_char q s); simpl; [|done]. by rewrite Hc, IH.
Qed.

Lemma after_last_other_clean p q s :
  has_char p s = false -> has_char p (after_last q s) = false.
Proof.
  induction s as [|c s IH]; [done|]. intros H.
  cbn [after_last]. destruct (has_char q (String c s)); [|done].
  apply IH. simpl in H. by apply orb_false_iff in H as [_ ?].
Qed.

Lemma anchor_none s : has_char is_sep s = false -> anchor s = "".
Proof. destruct s as [|c s]; [done|]. cbn [anchor]. by intros ->. Qed.


Lemma path_name_clean s : has_char is_sep (path_name s) = false.
Proof. apply after_last_clean. Qed.


Lemma path_name_joinpath d name :
  has_char is_sep name = false -> path_name (joinpath d name) = name.
Proof.
  intros Hn. unfold joinpath, path_name.
  destruct (String.eqb d "."); [by apply after_last_id|].
  unfold ends_with_sep.
  destruct (anchor d) as [|a r] eqn:Ha.
  - by apply after_last_sep_app.
  - destruct (String.eqb (path_name d) "") eqn:He.
    + apply String.eqb_eq in He.
      rewrite after_last_app; [by unfold path_name in He; rewrite He | done |].
      destruct (has_char is_sep d) eqn:Hd; [done|].
      by rewrite anchor_none in Ha.
    + by apply after_last_sep_app.
Qed.

Lemma stem_clean s : has_char is_sep (stem s) = false.
Proof.
  unfold stem. destruct (has_suffix (path_name s)).
  - apply before_last_clean, path_name_clean.
  - apply path_name_clean.
Qed.

Lemma suffix_clean s : has_char is_sep (suffix s) = false.
Proof.
  unfold suffix. destruct (has_suffix (path_name s)); [|done].
  simpl. apply after_last_other_clean, path_name_clean.
Qed.

Lemma pretty_N_char_clean x : is_sep (pretty_N_char x) = false.
Proof. unfold pretty_N_char. by repeat case_match. Qed.

Lemma pretty_N_go_clean x s :
  has_char is_sep s = false -> has_char is_sep (pretty_N_go x s) = false.
Proof.
  revert s. induction (N.lt_wf_0 x) as [x _ IH]; intros s Hs.
  assert (x = 0 \/ 0 < x)%N as [->|Hx] by lia.
  - by rewrite pretty_N_go_0.
  - rewrite pretty_N_go_step by done. apply IH.
    + by apply N.div_lt.
    + simpl. by rewrite pretty_N_char_clean, Hs.
Qed.

Lemma pretty_Z_clean (i : Z) : 0 <= i -> has_char is_sep (pretty i) = false.
Proof.
  intros Hi. destruct i as [|p|p]; [done| |lia].
  unfold pretty, pretty_Z, pretty, pretty_positive, pretty, pretty_N.
  destruct (decide _); [done|]. by apply pretty_N_go_clean.
Qed.

Lemma candidate_name d filename i :
  0 <= i ->
  path_name (candidate d filename i)
  = stem filename ++ "-" ++ pretty i ++ suffix filename.
Proof.
  intros Hi. unfold candidate. apply path_name_joinpath.
  rewrite !has_char_app, stem_clean, suffix_clean, pretty_Z_clean by done.
  done.
Qed.

(** ** _unique_dest *)










(** ** archive *)










(** The sample archive folder that is full. *)








Lemma reachable_two_folders : reachable (con two_folders).
Proof. apply reach_upsert, reach_upsert, reach_empty. Qed.


(** ** rename *)




(** [with_name] rejects an empty name before [rename] touches anything. *)
Lemma rename_empty_name i w it :
  get_item (con w) i = Some it -> rename i "" w = (w, Raise ValueError).
Proof.
  intros Hit. run. rewrite Hit. step. unfold with_name.
  by destruct (String.eqb (path_name (Item.path it)) "").
Qed.




(** * Further properties *)

(** ** upsert_file, again *)

Lemma refresh_twice f s m r : refresh f s m (refresh f s m r) = refresh f s m r.
Proof. done. Qed.

Lemma existsb_fmap_stable {A} (p : A -> bool) (g : A -> A) (l : list A) :
  (forall x, p (g x) = p x) -> existsb p (g <$> l) = existsb p l.
Proof.
  intros Hp. induction l as [|x l IH]; [done|].
  rewrite fmap_cons. simpl. by rewrite Hp, IH.
Qed.

Lemma upsert_statement_hit c p f s m now :
  existsb (has_path p) (items c) = true ->
  upsert_statement c p f s m now
  = {| items := (fun r => if has_path p r then refresh f s m r else r)
                  <$> items c;
       sqlite_sequence := sqlite_sequence c + 1;
       last_insert_rowid := last_insert_rowid c |}.
Proof. intros H. unfold upsert_statement. by rewrite H. Qed.

Lemma upsert_statement_miss c p f s m now :
  existsb (has_path p) (items c) = false ->
  upsert_statement c p f s m now
  = {| items := items c ++ [fresh_row (sqlite_sequence c + 1) p f s m now];
       sqlite_sequence := sqlite_sequence c + 1;
       last_insert_rowid := sqlite_sequence c + 1 |}.
Proof. intros H. unfold upsert_statement. by rewrite H. Qed.

Lemma upsert_statement_found c p f s m now :
  existsb (has_path p) (items (upsert_statement c p f s m now)) = true.
Proof.
  rewrite existsb_find. apply bool_decide_eq_true.
  apply upsert_statement_present.
Qed.

(** X1: repeating an upsert with the same arguments changes no row: the
    second call finds the path, and what it writes is already there.  It
    only uses up one more rowid. *)
Theorem upsert_file_idempotent (c : Conn) (path filename : string) (size : Z)
    (mtime now later : Q) :
  let c1 := (upsert_file c path filename size mtime now).1 in
  let c2 := (upsert_file c1 path filename size mtime later).1 in
  items c2 = items c1 /\
  last_insert_rowid c2 = last_insert_rowid c1 /\
  sqlite_sequence c2 = sqlite_sequence c1 + 1.
Proof.
  intros c1 c2. subst c1 c2. rewrite !upsert_file_con.
  rewrite (upsert_statement_hit (upsert_statement c path filename size mtime now))
    by apply upsert_statement_found.
  simpl. split; [|done].
  destruct (existsb (has_path path) (items c)) eqn:Hex.
  - rewrite (upsert_statement_hit c) by done. simpl.
    rewrite <- list_fmap_compose. apply list_fmap_ext. intros _ r _.
    unfold compose. destruct (has_path path r) eqn:Hr.
    + by rewrite (proj2 (has_path_true _ _)) by (by apply has_path_true in Hr).
    + by rewrite Hr.
  - rewrite (upsert_statement_miss c) by done. simpl.
    rewrite fmap_app. f_equal.
    + apply fmap_if_id. intros x Hx.
      destruct (has_path path x) eqn:Hp; [|done].
      assert (existsb (has_path path) (items c) = true) as Ht; [|congruence].
      apply existsb_true_elem. eauto.
    + simpl. by rewrite (proj2 (has_path_true _ _)).
Qed.

(** X2: on a connection that has just been opened [upsert_file] returns
    the identifier of the Item it stored, for an insert and for an update.
    In general an update returns the Item's identifier exactly when the
    connection has inserted nothing yet or inserted this Item last. *)
Theorem upsert_file_id_after_connect (c : Conn) (path filename : string)
    (size : Z) (mtime now : Q) :
  (let r := upsert_file (connect c) path filename size mtime now in
   Item.id <$> get_item_by_path r.1 path = Some r.2) /\
  (forall it, get_item_by_path c path = Some it ->
     let r := upsert_file c path filename size mtime now in
     Item.id <$> get_item_by_path r.1 path = Some (Item.id it) /\
     (r.2 = Item.id it
      <-> last_insert_rowid c = 0 \/ last_insert_rowid c = Item.id it)).
Proof.
  split.
  - cbv zeta.
    destruct (get_item_by_path (connect c) path) as [it|] eqn:Hit.
    + rewrite (upsert_file_update_id _ _ _ _ _ _ _ Hit). simpl.
      rewrite upsert_file_con.
      by rewrite (upsert_statement_update _ _ _ _ _ _ _ Hit).
    + by apply upsert_file_insert_id.
  - intros it Hit. cbv zeta. split.
    + rewrite upsert_file_con.
      by rewrite (upsert_statement_update _ _ _ _ _ _ _ Hit).
    + rewrite (upsert_file_update_id _ _ _ _ _ _ _ Hit).
      destruct (Z.eqb_spec (last_insert_rowid c) 0) as [Hz|Hz].
      * split; [by left | done].
      * split; [by right | by intros [?|?]].
Qed.

Lemma upsert_file_id_after_connect_witness :
  Item.id <$> get_item_by_path
    (upsert_file (connect (con one_folder)) "/d/a.txt" "a.txt" 4 12%Q 40%Q).1
    "/d/a.txt"
  = Some 1 /\
  (upsert_file (connect (con one_folder)) "/d/a.txt" "a.txt" 4 12%Q 40%Q).2 = 1 /\
  (upsert_file (con one_folder) "/d/a.txt" "a.txt" 4 12%Q 40%Q).2 <> 1.
Proof.
  destruct (upsert_file_id_after_connect (connect (con one_folder)) "/d/a.txt"
              "a.txt" 4 12%Q 40%Q) as (_ & Hnew).
  destruct (upsert_file_id_after_connect (con one_folder) "/d/a.txt"
              "a.txt" 4 12%Q 40%Q) as (_ & Hold).
  destruct (Hnew (fresh_row 1 "/d/a.txt" "a.txt" 3 10%Q 20%Q) eq_refl)
    as (Hget & Hiff).
  destruct (Hold (fresh_row 1 "/d/a.txt" "a.txt" 3 10%Q 20%Q) eq_refl)
    as (_ & Hiff').
  split; [exact Hget|]. split.
  - apply Hiff. left. reflexivity.
  - intros Heq. apply Hiff' in Heq as [Heq|Heq]; by vm_compute in Heq.
Defined.

(** ** Identifiers *)

Lemma get_item_unique (l : list Item) (a : Item) :
  NoDup (Item.id <$> l) -> a ∈ l -> find (has_id (Item.id a)) l = Some a.
Proof.
  induction l as [|r l IH]; intros Hnd Ha; [by apply elem_of_nil in Ha|].
  rewrite fmap_cons in Hnd. apply NoDup_cons in Hnd as [Hr Hnd]. simpl.
  apply elem_of_cons in Ha as [->|Ha].
  - unfold has_id. by rewrite Z.eqb_refl.
  - destruct (has_id (Item.id a) r) eqn:Hp; [|by apply IH].
    apply has_id_true in Hp. exfalso. apply Hr. rewrite Hp.
    by apply list_elem_of_fmap_2.
Qed.

(** X3: in a reachable store the two lookups find exactly the stored
    Items and agree with each other; identifiers are positive, and an
    insert hands out an identifier larger than every one in the store. *)
Theorem lookups_agree (c : Conn) :
  reachable c ->
  (forall a, a ∈ items c <-> get_item c (Item.id a) = Some a) /\
  (forall a, a ∈ items c <-> get_item_by_path c (Item.path a) = Some a) /\
  (forall i a, get_item c i = Some a ->
     Item.id a = i /\ 0 < i /\ get_item_by_path c (Item.path a) = Some a) /\
  (forall p a, get_item_by_path c p = Some a ->
     Item.path a = p /\ get_item c (Item.id a) = Some a) /\
  (forall p f s m now a,
     get_item_by_path c p = None -> a ∈ items c ->
     Item.id a < (upsert_file c p f s m now).2).
Proof.
  intros Hc. apply reachable_store_ok in Hc as [Hi Hp Hb Hl].
  assert (forall a, a ∈ items c <-> get_item c (Item.id a) = Some a) as Hid.
  { intros a. split; [by apply get_item_unique|].
    intros H. by apply find_Some_elem in H as [? _]. }
  assert (forall a, a ∈ items c <-> get_item_by_path c (Item.path a) = Some a)
    as Hpath.
  { intros a. split; [by apply get_item_by_path_unique|].
    intros H. by apply find_Some_elem in H as [? _]. }
  split; [done|]. split; [done|]. split; [|split].
  - intros i a Ha. pose proof Ha as Ha'.
    apply find_Some_elem in Ha as [Hin Hia]. apply has_id_true in Hia.
    rewrite Forall_forall in Hb. specialize (Hb a Hin). simpl in Hb.
    split; [done|]. split; [lia|]. by apply Hpath.
  - intros p a Ha. apply find_Some_elem in Ha as [Hin Hpa].
    apply has_path_true in Hpa. split; [done|]. by apply Hid.
  - intros p f s m now a Hnone Hin.
    pose proof (upsert_file_insert_id c p f s m now Hnone) as Hret.
    rewrite upsert_file_con, upsert_statement_insert in Hret by done.
    simpl in Hret. injection Hret as <-.
    rewrite Forall_forall in Hb. specialize (Hb a Hin). simpl in Hb. lia.
Qed.

Lemma lookups_agree_witness :
  get_item (con one_folder) 2
  = Some (fresh_row 2 "/d/b.txt" "b.txt" 3 11%Q 21%Q) /\
  get_item_by_path (con one_folder) "/d/b.txt"
  = Some (fresh_row 2 "/d/b.txt" "b.txt" 3 11%Q 21%Q) /\
  2 < (upsert_file (con one_folder) "/d/c.txt" "c.txt" 1 12%Q 22%Q).2.
Proof.
  destruct (lookups_agree (con one_folder) reachable_one_folder)
    as (Hid & Hpath & _ & _ & Hfresh).
  assert (fresh_row 2 "/d/b.txt" "b.txt" 3 11%Q 21%Q ∈ items (con one_folder))
    as Hin by (apply list_elem_of_further, list_elem_of_here).
  split; [exact (proj1 (Hid _) Hin)|]. split; [exact (proj1 (Hpath _) Hin)|].
  exact (Hfresh "/d/c.txt" "c.txt" 1 12%Q 22%Q _ eq_refl Hin).
Defined.

(** ** What no store operation changes *)

Lemma keeps_refl a : keeps a a.
Proof. by repeat split. Qed.

Lemma keeps_trans a b c : keeps a b -> keeps b c -> keeps a c.
Proof.
  intros (Hi & Hf & Ht) (Hi' & Hf' & Ht'). repeat split; [congruence..|].
  intros s t H. by apply Ht', Ht.
Qed.

Lemma keeps_apply_status st now a : keeps a (apply_status st now a).
Proof.
  repeat split. intros s t H.
  destruct a as [? ? ? ? ? ? ? ra aa ja ?]. destruct s; simpl in *; by subst.
Qed.

Lemma get_item_fmap_if c (sel : Item -> bool) (g : Item -> Item) rows i a :
  (forall r, Item.id (g r) = Item.id r) ->
  items c = rows ->
  get_item c i = Some a ->
  find (has_id i) ((fun r => if sel r then g r else r) <$> rows)
  = Some (if sel a then g a else a).
Proof.
  intros Hg <- Ha. unfold get_item in Ha.
  rewrite find_fmap_stable, Ha; [done|].
  intros x. unfold has_id. destruct (sel x); [by rewrite Hg | done].
Qed.

Lemma store_step_keeps c c' i a :
  store_step c c' -> get_item c i = Some a ->
  exists a', get_item c' i = Some a' /\ keeps a a'.
Proof.
  intros Hstep Ha.
  destruct Hstep as [c | c p f s m now | c j st now | c j np nf c' Hset
                     | c old np nf c' Hset | c j ts].
  - exists a. split; [done | apply keeps_refl].
  - rewrite upsert_file_con.
    destruct (existsb (has_path p) (items c)) eqn:Hex.
    + rewrite upsert_statement_hit by done. unfold get_item at 1. simpl.
      rewrite (get_item_fmap_if c _ (refresh f s m) _ i a) by done.
      eexists. split; [done|]. destruct (has_path p a); by repeat split.
    + rewrite upsert_statement_miss by done. unfold get_item in *. simpl.
      rewrite find_app, Ha. exists a. split; [done | apply keeps_refl].
  - unfold set_status, get_item at 1. simpl.
    rewrite (get_item_fmap_if c _ (apply_status st now) _ i a) by done.
    eexists. split; [done|].
    destruct (has_id j a); [apply keeps_apply_status | apply keeps_refl].
  - apply update_path_ok in Hset as [-> _]. unfold get_item at 1. simpl.
    rewrite (get_item_fmap_if c _ (move_row np nf) _ i a) by done.
    eexists. split; [done|]. destruct (has_id j a); by repeat split.
  - apply update_path_ok in Hset as [-> _]. unfold get_item at 1. simpl.
    rewrite (get_item_fmap_if c _ (move_row np nf) _ i a) by done.
    eexists. split; [done|]. destruct (has_path old a); by repeat split.
  - unfold add_tags. destruct (get_item c j) as [b|].
    + unfold get_item at 1. simpl.
      rewrite (get_item_fmap_if c _ (with_tags _) _ i a) by done.
      eexists. split; [done|]. destruct (has_id j a); by repeat split.
    + exists a. split; [done | apply keeps_refl].
Qed.

Lemma reachable_rtc c : reachable c <-> rtc store_step empty_db c.
Proof.
  split.
  - induction 1 as [| c _ IH | c p f s m now _ IH | c i st now _ IH
                    | c i np nf c' _ IH Hset | c old np nf c' _ IH Hset
                    | c i ts _ IH].
    + done.
    + eapply rtc_r; [exact IH | constructor].
    + eapply rtc_r; [exact IH | constructor].
    + eapply rtc_r; [exact IH | constructor].
    + eapply rtc_r; [exact IH | by eapply step_set_path].
    + eapply rtc_r; [exact IH | by eapply step_set_path_by_old_path].
    + eapply rtc_r; [exact IH | constructor].
  - revert c. apply (rtc_ind_r reachable empty_db); [constructor|].
    intros c c' _ Hstep IH.
    destruct Hstep; [by constructor.. | | | by constructor].
    + by eapply reach_set_path.
    + by eapply reach_set_path_by_old_path.
Qed.

(** X4: the reachable stores are the ones store operations lead to from a
    new database, and along any sequence of store operations an Item is
    never deleted, keeps its identifier and its first-seen time, and keeps
    every transition timestamp that has been set. *)
Theorem store_operations_keep (c c' : Conn) (item_id : Z) (a : Item) :
  rtc store_step c c' ->
  get_item c item_id = Some a ->
  (reachable c -> reachable c') /\
  exists a',
    get_item c' item_id = Some a' /\
    Item.id a' = Item.id a /\
    Item.first_seen a' = Item.first_seen a /\
    (forall s t, transition_at s a = Some t -> transition_at s a' = Some t).
Proof.
  intros Hsteps Ha. split.
  - rewrite !reachable_rtc. intros H. by etrans.
  - cut (exists a', get_item c' item_id = Some a' /\ keeps a a').
    { intros (a' & Hget & Hi & Hf & Ht). eauto 10. }
    revert c' Hsteps.
    apply (rtc_ind_r (fun c' => exists a', get_item c' item_id = Some a'
                                          /\ keeps a a') c).
    + exists a. split; [done | apply keeps_refl].
    + intros c1 c' _ Hstep (a1 & Ha1 & Hk1).
      destruct (store_step_keeps _ _ _ _ Hstep Ha1) as (a' & Ha' & Hk').
      exists a'. split; [done | by eapply keeps_trans].
Qed.

Lemma store_operations_keep_witness :
  exists a',
    get_item (set_status (set_status (upsert_file (con one_folder) "/d/a.txt"
                                        "a.txt" 9 12%Q 50%Q).1
                                     1 reviewed 60%Q) 1 archived 70%Q) 1
    = Some a' /\
    Item.id a' = 1 /\ Item.first_seen a' = 20%Q.
Proof.
  destruct (store_operations_keep (con one_folder)
              (set_status (set_status (upsert_file (con one_folder) "/d/a.txt"
                                         "a.txt" 9 12%Q 50%Q).1
                                      1 reviewed 60%Q) 1 archived 70%Q)
              1 (fresh_row 1 "/d/a.txt" "a.txt" 3 10%Q 20%Q))
    as (_ & a' & Hget & Hid & Hseen & _).
  - eapply rtc_l; [apply step_upsert|].
    eapply rtc_l; [apply step_set_status|].
    apply rtc_once, step_set_status.
  - reflexivity.
  - exists a'. by repeat split.
Defined.

(** ** add_tags *)

Lemma compare_refl_eq s : String.compare s s = Eq.
Proof.
  pose proof (String.compare_antisym s s) as H.
  by destruct (String.compare s s).
Qed.

Lemma str_lt_irrefl a : ~ str_lt a a.
Proof. unfold str_lt. by rewrite compare_refl_eq. Qed.

Lemma str_lt_le a b : str_lt a b -> String.le a b.
Proof. unfold str_lt, String.le, String.leb. by intros ->. Qed.

Lemma compare_gt a b : String.compare a b = Gt -> str_lt b a.
Proof.
  unfold str_lt. rewrite (String.compare_antisym b a). by intros ->.
Qed.

Global Instance str_lt_trans : Transitive str_lt.
Proof.
  intros a b c Hab Hbc.
  assert (String.le a c) as Hle
    by (etrans; [by apply str_lt_le | by apply str_lt_le]).
  unfold str_lt. destruct (String.compare a c) eqn:Hac; [|done|].
  - apply String.compare_eq_iff in Hac as ->.
    assert (b = c) as ->
      by (apply (anti_symm String.le); by apply str_lt_le).
    by apply str_lt_irrefl in Hbc.
  - unfold String.le, String.leb in Hle. by rewrite Hac in Hle.
Qed.

Lemma set_add_elem t l x : x ∈ set_add t l <-> x = t \/ x ∈ l.
Proof.
  induction l as [|y l IH]; simpl.
  - rewrite list_elem_of_singleton, elem_of_nil. tauto.
  - destruct (String.compare t y) eqn:Hc.
    + apply String.compare_eq_iff in Hc as ->. rewrite elem_of_cons. tauto.
    + rewrite !elem_of_cons. tauto.
    + rewrite !elem_of_cons, IH. tauto.
Qed.

Lemma set_add_hd y t l :
  HdRel str_lt y l -> str_lt y t -> HdRel str_lt y (set_add t l).
Proof.
  intros Hl Ht. destruct l as [|x l]; simpl.
  - by constructor.
  - destruct (String.compare t x); constructor; try done;
      by apply HdRel_inv in Hl.
Qed.

Lemma set_add_sorted t l : Sorted str_lt l -> Sorted str_lt (set_add t l).
Proof.
  induction 1 as [|x l Hl IH Hx]; simpl.
  - by repeat constructor.
  - destruct (String.compare t x) eqn:Hc.
    + by constructor.
    + constructor; [by constructor | by constructor].
    + constructor; [done|]. apply set_add_hd; [done | by apply compare_gt].
Qed.

Lemma sorted_set_sorted l : Sorted str_lt (sorted_set l).
Proof.
  induction l as [|x l IH]; simpl; [constructor | by apply set_add_sorted].
Qed.

Lemma sorted_set_elem l x : x ∈ sorted_set l <-> x ∈ l.
Proof.
  induction l as [|y l IH]; simpl; [done|].
  rewrite set_add_elem, elem_of_cons, IH. tauto.
Qed.

(** The loop of [add_tags] over the given tags. *)
Lemma add_loop_spec ts acc :
  Sorted str_lt acc ->
  let r := foldl (fun acc t => let t' := strip t in
                               if String.eqb t' "" then acc else set_add t' acc)
                 acc ts in
  Sorted str_lt r /\
  forall x, x ∈ r <-> x ∈ acc \/ (x <> "" /\ exists t, t ∈ ts /\ strip t = x).
Proof.
  revert acc. induction ts as [|t ts IH]; intros acc Hacc; simpl.
  - split; [done|]. intros x. split; [by left|].
    intros [?|(_ & t & Ht & _)]; [done | by apply elem_of_nil in Ht].
  - destruct (String.eqb_spec (strip t) "") as [He|Hne].
    + destruct (IH acc Hacc) as [Hs Hx]. split; [done|].
      intros x. rewrite Hx. split; (intros [?|(Hn & t' & Ht' & Hst)]; [by left|]).
      * right. split; [done|]. exists t'. split; [by right | done].
      * apply elem_of_cons in Ht' as [->|Ht']; [congruence|].
        right. eauto.
    + destruct (IH (set_add (strip t) acc) (set_add_sorted _ _ Hacc)) as [Hs Hx].
      split; [done|]. intros x. rewrite Hx, set_add_elem. split.
      * intros [[->|?]|(Hn & t' & Ht' & Hst)].
        -- right. split; [done|]. exists t. split; [by left | done].
        -- by left.
        -- right. split; [done|]. exists t'. split; [by right | done].
      * intros [?|(Hn & t' & Ht' & Hst)]; [by left; right|].
        apply elem_of_cons in Ht' as [->|Ht']; [by left; left|].
        right. eauto.
Qed.

Lemma sorted_strongly (l : list string) :
  Sorted str_lt l -> StronglySorted str_lt l.
Proof. apply Sorted.Sorted_StronglySorted, str_lt_trans. Qed.

Lemma strongly_sorted_nodup (l : list string) :
  StronglySorted str_lt l -> NoDup l.
Proof.
  induction 1 as [|x l _ IH Hx]; [constructor|].
  apply NoDup_cons. split; [|done].
  intros Hin. rewrite Forall_forall in Hx.
  by apply (str_lt_irrefl x), Hx.
Qed.

(** Two sorted tag lists with the same members are the same list. *)
Lemma sorted_tags_ext (l k : list string) :
  Sorted str_lt l -> Sorted str_lt k -> (forall x, x ∈ l <-> x ∈ k) -> l = k.
Proof.
  intros Hl Hk Hx. apply (Sorted_unique_strong str_lt); [|done|done|].
  - intros a b _ _ Hab Hba. exfalso. apply (str_lt_irrefl a). by etrans.
  - apply NoDup_Permutation; [| |done];
      by apply strongly_sorted_nodup, sorted_strongly.
Qed.



(** X6: what [add_tags] stores depends on the set of tags it is given,
    not on their order or repetitions, and adding the same tags a second
    time changes nothing. *)
Theorem add_tags_set_semantics (c : Conn) (item_id : Z) (tags tags' : list string) :
  ((forall t, t ∈ tags <-> t ∈ tags') ->
   add_tags c item_id tags = add_tags c item_id tags') /\
  add_tags (add_tags c item_id tags) item_id tags = add_tags c item_id tags.
Proof.
  split.
  - intros Hsame. unfold add_tags.
    destruct (get_item c item_id) as [a|]; [|done].
    destruct (add_loop_spec tags (sorted_set (Item.tags a))
                (sorted_set_sorted _)) as [Hs Hx].
    destruct (add_loop_spec tags' (sorted_set (Item.tags a))
                (sorted_set_sorted _)) as [Hs' Hx'].
    cbv zeta in Hs, Hx, Hs', Hx'.
    erewrite (sorted_tags_ext _ _ Hs Hs'); [done|].
    intros x. rewrite Hx, Hx'. by setoid_rewrite Hsame.
  - unfold add_tags at 2 3.
    destruct (get_item c item_id) as [a|] eqn:Ha;
      [|unfold add_tags; by rewrite Ha].
    destruct (add_loop_spec tags (sorted_set (Item.tags a))
                (sorted_set_sorted _)) as [Hs Hx].
    cbv zeta in Hs, Hx.
    set (E := foldl _ (sorted_set (Item.tags a)) tags) in *.
    unfold add_tags. unfold get_item at 1. cbn [items with_items].
    rewrite (get_item_fmap_if c _ (with_tags E) _ item_id a) by done.
    rewrite (proj2 (has_id_true item_id a))
      by (by apply find_Some_elem in Ha as [_ ?%has_id_true]).
    cbn [Item.tags with_tags].
    destruct (add_loop_spec tags (sorted_set E) (sorted_set_sorted _))
      as [Hs2 Hx2].
    cbv zeta in Hs2, Hx2.
    rewrite (sorted_tags_ext _ E Hs2 Hs).
    + unfold with_items. cbn [items sqlite_sequence last_insert_rowid].
      f_equal. rewrite <- list_fmap_compose. apply list_fmap_ext.
      intros _ r _. unfold compose.
      destruct (has_id item_id r) eqn:Hr; [|by rewrite Hr].
      by rewrite (proj2 (has_id_true item_id _))
        by (by apply has_id_true in Hr).
    + intros x. rewrite Hx2, sorted_set_elem, Hx. tauto.
Qed.

Lemma add_tags_set_semantics_witness :
  add_tags (con one_folder) 1 ["b"; "a"; "b"]
  = add_tags (con one_folder) 1 ["a"; "b"].
Proof.
  refine (proj1 (add_tags_set_semantics (con one_folder) 1 ["b"; "a"; "b"]
                   ["a"; "b"]) _).
  intros t. rewrite !elem_of_cons, !elem_of_nil. tauto.
Defined.

(** ** list_items *)

Global Instance newer_first_trans : Transitive newer_first.
Proof. intros a b c Hab Hbc. unfold newer_first in *. by eapply Qle_trans. Qed.

Global Instance newer_first_total : Total newer_first.
Proof.
  intros a b. unfold newer_first.
  destruct (Qlt_le_dec (Item.first_seen a) (Item.first_seen b)) as [H|H].
  - right. by apply Qlt_le_weak.
  - by left.
Qed.

Lemma elem_of_take_1 {A} (l : list A) n x : x ∈ take n l -> x ∈ l.
Proof. intros H. rewrite <- (take_drop n l). apply elem_of_app. by left. Qed.

Lemma elem_of_drop_1 {A} (l : list A) n x : x ∈ drop n l -> x ∈ l.
Proof. intros H. rewrite <- (take_drop n l). apply elem_of_app. by right. Qed.

Lemma strongly_sorted_take {A} (R : relation A) (l : list A) n :
  StronglySorted R l -> StronglySorted R (take n l).
Proof.
  intros H. rewrite <- (take_drop n l) in H.
  by apply StronglySorted_app_1_l in H.
Qed.

Lemma strongly_sorted_drop {A} (R : relation A) (l : list A) n :
  StronglySorted R l -> StronglySorted R (drop n l).
Proof.
  intros H. rewrite <- (take_drop n l) in H.
  by apply StronglySorted_app_1_r in H.
Qed.

(** X7: [list_items] returns Items of the store, all with the status asked
    for, newest first and at most [limit] of them when [limit] is not
    negative.  With a negative limit and no offset it returns every Item
    of that status, as many as [counts_by_status] counts, and consecutive
    pages put together are the longer page. *)
Theorem list_items_pages (c : Conn) (status : option Status)
    (limit offset more : Z) :
  let l := list_items c status limit offset in
  (forall a, a ∈ l ->
     a ∈ items c /\ forall s, status = Some s -> Item.status a = s) /\
  StronglySorted newer_first l /\
  (0 <= limit -> (length l <= Z.to_nat limit)%nat) /\
  (limit < 0 -> offset <= 0 ->
   l ≡ₚ match status with
        | None => items c
        | Some s => filter (fun r => Item.status r = s) (items c)
        end) /\
  (forall s, Z.of_nat (length (list_items c (Some s) (-1) 0))
             = count_status s (items c)) /\
  (0 <= limit -> 0 <= more -> 0 <= offset ->
   (l ++ list_items c status more (offset + limit))%list
   = list_items c status (limit + more) offset).
Proof.
  intros l. subst l. unfold list_items.
  set (rows := match status with
               | None => items c
               | Some s => filter (fun r => Item.status r = s) (items c)
               end).
  set (sorted := merge_sort newer_first rows).
  assert (forall a, a ∈ sorted ->
            a ∈ items c /\ forall s, status = Some s -> Item.status a = s)
    as Hin.
  { intros a Ha. unfold sorted in Ha. rewrite merge_sort_Permutation in Ha.
    unfold rows in Ha. destruct status as [s|].
    - apply list_elem_of_filter in Ha as [Hs Ha]. split; [done|].
      by intros ? [= <-].
    - split; [done|]. by intros. }
  assert (StronglySorted newer_first sorted) as Hsorted.
  { apply (StronglySorted_merge_sort newer_first). }
  split; [|split; [|split; [|split; [|split]]]].
  - intros a Ha. apply Hin. destruct (limit <? 0)%Z.
    + by eapply elem_of_drop_1.
    + eapply elem_of_drop_1. by eapply elem_of_take_1.
  - destruct (limit <? 0)%Z.
    + by apply strongly_sorted_drop.
    + by apply strongly_sorted_take, strongly_sorted_drop.
  - intros Hl. rewrite (proj2 (Z.ltb_ge _ _)) by done.
    rewrite length_take. lia.
  - intros Hl Ho. rewrite (proj2 (Z.ltb_lt _ _)) by done.
    replace (Z.to_nat offset) with 0%nat by lia.
    rewrite drop_0. apply merge_sort_Permutation.
  - intros s. simpl. rewrite drop_0.
    by rewrite merge_sort_Permutation.
  - intros Hl Hm Ho.
    rewrite !(proj2 (Z.ltb_ge _ _)) by lia.
    rewrite Z2Nat.inj_add by lia.
    rewrite <- (drop_drop sorted (Z.to_nat limit) (Z.to_nat offset)).
    rewrite take_take_drop. f_equal. lia.
Qed.

Lemma list_items_pages_witness :
  Item.id <$> list_items (con one_folder) (Some new) 1 0 = [2] /\
  (list_items (con one_folder) (Some new) 1 0
   ++ list_items (con one_folder) (Some new) 1 (0 + 1))%list
  = list_items (con one_folder) (Some new) (1 + 1) 0 /\
  (length (list_items (con one_folder) None 1 0) <= Z.to_nat 1)%nat /\
  list_items (con one_folder) (Some reviewed) (-1) 0 ≡ₚ [].
Proof.
  destruct (list_items_pages (con one_folder) (Some new) 1 0 1)
    as (_ & _ & _ & _ & _ & Hpage).
  destruct (list_items_pages (con one_folder) None 1 0 1)
    as (_ & _ & Hlen & _).
  destruct (list_items_pages (con one_folder) (Some reviewed) (-1) 0 1)
    as (_ & _ & _ & Hall & _).
  split; [by vm_compute|]. split; [apply Hpage; lia|].
  split; [apply Hlen; lia|]. apply Hall; lia.
Defined.

(** ** scanner.py *)




Lemma scan_file_passes cfg files now acc p st :
  files !! p = Some st -> scan_too_new cfg now st = false ->
  scan_file cfg files now acc p
  = ((upsert_file acc.1 p (path_name p) (st_size st) (st_mtime st) now).1,
     acc.2 + 1).
Proof. intros Hp Hs. unfold scan_file. by rewrite Hp, Hs. Qed.

Lemma scan_file_cases cfg files now acc p :
  (passes cfg files now p = false /\ scan_file cfg files now acc p = acc) \/
  (passes cfg files now p = true /\
   exists st, files !! p = Some st /\ scan_too_new cfg now st = false /\
     scan_file cfg files now acc p
     = ((upsert_file acc.1 p (path_name p) (st_size st) (st_mtime st) now).1,
        acc.2 + 1)).
Proof.
  unfold passes, scan_file. destruct (files !! p) as [st|]; [|by left].
  destruct (scan_too_new cfg now st) eqn:Hs; [by left|].
  right. split; [done|]. by exists st.
Qed.

Lemma foldl_bind {A B C} (f : A -> C -> A) (g : B -> list C) (l : list B) (a : A) :
  foldl f a (l ≫= g) = foldl (fun acc x => foldl f acc (g x)) a l.
Proof.
  revert a. induction l as [|x l IH]; intros a; [done|].
  rewrite bind_cons, foldl_app. simpl. apply IH.
Qed.

Lemma scan_once_fold cfg now w :
  scan_once cfg now w
  = let r := foldl (scan_file cfg (fs w) now) (con w, 0)
                   (scan_listing cfg (fs w)) in
    (with_con w r.1, r.2).
Proof. unfold scan_once, scan_listing. by rewrite foldl_bind. Qed.


Section scan_pass.
Context (cfg : Config) (files : gmap string File) (now : Q).

Lemma scan_file_holds acc q p st :
  files !! p = Some st ->
  (q = p /\ passes cfg files now p = true) \/ registered acc.1 p st ->
  registered (scan_file cfg files now acc q).1 p st.
Proof.
  intros Hp Hcase.
  destruct (scan_file_cases cfg files now acc q)
    as [[Hno ->]|(Hyes & st' & Hq & Hs & ->)].
  - destruct Hcase as [[-> Hpass]|H]; [congruence | done].
  - simpl. rewrite upsert_file_con. destruct (decide (q = p)) as [->|Hne].
    + assert (st' = st) as -> by congruence.
      destruct (upsert_statement_present acc.1 p (path_name p) (st_size st)
                  (st_mtime st) now) as [it Hit].
      exists it. split; [done|].
      destruct (get_item_by_path acc.1 p) as [old|] eqn:Hold.
      * rewrite (upsert_statement_update _ _ _ _ _ _ _ Hold) in Hit.
        by injection Hit as <-.
      * rewrite (upsert_statement_insert _ _ _ _ _ _ Hold) in Hit.
        by injection Hit as <-.
    + destruct Hcase as [[-> _]|(it & Hit & ?)]; [done|].
      exists it. split; [|done].
      by rewrite upsert_statement_other by done.
Qed.

Lemma scan_fold_holds l acc p st :
  files !! p = Some st ->
  (p ∈ l /\ passes cfg files now p = true) \/ registered acc.1 p st ->
  registered (foldl (scan_file cfg files now) acc l).1 p st.
Proof.
  intros Hp. revert acc. induction l as [|q l IH]; intros acc Hcase.
  - destruct Hcase as [[Hin _]|H]; [by apply elem_of_nil in Hin | done].
  - simpl. apply IH.
    destruct Hcase as [[Hin Hpass]|H].
    + apply elem_of_cons in Hin as [->|Hin]; [|by left].
      right. apply scan_file_holds; [done | by left].
    + right. apply scan_file_holds; [done | by right].
Qed.

Lemma scan_fold_count l acc :
  (foldl (scan_file cfg files now) acc l).2
  = acc.2 + Z.of_nat (length (List.filter (passes cfg files now) l)).
Proof.
  revert acc. induction l as [|q l IH]; intros acc; simpl; [lia|].
  rewrite IH.
  destruct (scan_file_cases cfg files now acc q)
    as [[-> ->]|(-> & st & _ & _ & ->)]; simpl; lia.
Qed.


Lemma scan_fold_reachable l acc :
  reachable acc.1 -> reachable (foldl (scan_file cfg files now) acc l).1.
Proof.
  revert acc. induction l as [|q l IH]; intros acc Hr; simpl; [done|].
  apply IH.
  destruct (scan_file_cases cfg files now acc q)
    as [[_ ->]|(_ & st & _ & _ & ->)]; [done|].
  simpl. by apply reach_upsert.
Qed.
End scan_pass.



Lemma refresh_same f s m it :
  Item.filename it = f -> Item.size it = s -> Item.mtime it = m ->
  refresh f s m it = it.
Proof. destruct it. simpl. by intros -> -> ->. Qed.

Lemma fmap_id_on {A} (g : A -> A) (l : list A) :
  (forall x, x ∈ l -> g x = x) -> g <$> l = l.
Proof.
  intros H. rewrite <- (list_fmap_id l) at 2. apply list_fmap_ext.
  intros i x Hx. apply H. by eapply list_elem_of_lookup_2.
Qed.

(** An upsert that brings nothing new leaves the rows as they are. *)
Lemma upsert_statement_same c p f s m now it :
  NoDup (Item.path <$> items c) ->
  get_item_by_path c p = Some it ->
  Item.filename it = f -> Item.size it = s -> Item.mtime it = m ->
  items (upsert_statement c p f s m now) = items c.
Proof.
  intros Hnd Hit Hf Hs Hm.
  rewrite upsert_statement_hit.
  - simpl. apply fmap_id_on. intros r Hr.
    destruct (has_path p r) eqn:Hp; [|done].
    apply has_path_true in Hp.
    pose proof (get_item_by_path_unique _ _ Hnd Hr) as Hfind.
    rewrite Hp in Hfind. unfold get_item_by_path in Hit.
    assert (r = it) as -> by congruence. by apply refresh_same.
  - rewrite existsb_find. apply bool_decide_eq_true.
    unfold get_item_by_path in Hit. rewrite Hit. eauto.
Qed.

Lemma scan_fold_same cfg files later l acc c1 :
  items acc.1 = items c1 ->
  NoDup (Item.path <$> items c1) ->
  (forall p st, p ∈ l -> files !! p = Some st ->
                scan_too_new cfg later st = false -> registered c1 p st) ->
  items (foldl (scan_file cfg files later) acc l).1 = items c1.
Proof.
  intros Hacc Hnd. revert acc Hacc.
  induction l as [|q l IH]; intros acc Hacc Hreg; [done|].
  simpl. apply IH.
  - destruct (scan_file_cases cfg files later acc q)
      as [[_ ->]|(_ & st & Hq & Hs & ->)]; [done|].
    simpl. rewrite upsert_file_con.
    destruct (Hreg q st (list_elem_of_here _ _) Hq Hs)
      as (it & Hit & Hsize & Hmtime & Hname).
    rewrite <- Hacc.
    apply (upsert_statement_same _ _ _ _ _ _ it); try done.
    + by rewrite Hacc.
    + unfold get_item_by_path in *. by rewrite Hacc.
  - intros p st Hp. apply Hreg. by apply list_elem_of_further.
Qed.

(** X10: a second pass of [scan_once] over the same files changes no row
    of a reachable store, also at a later time as long as no further file
    has become settled, and at the same time it returns the same count. *)
Theorem scan_once_idempotent (cfg : Config) (now later : Q) (w : World) :
  reachable (con w) ->
  (forall p st, p ∈ scan_listing cfg (fs w) -> fs w !! p = Some st ->
                scan_too_new cfg later st = false ->
                scan_too_new cfg now st = false) ->
  let w1 := (scan_once cfg now w).1 in
  items (con (scan_once cfg later w1).1) = items (con w1) /\
  (scan_once cfg now w1).2 = (scan_once cfg now w).2.
Proof.
  intros Hreach Hsettled w1.
  assert (fs w1 = fs w) as Hfs by (subst w1; by rewrite scan_once_fold).
  split.
  - rewrite scan_once_fold. cbv zeta. cbn [fst snd con with_con].
    apply scan_fold_same; [done | |].
    + assert (reachable (con w1)) as Hr
        by (subst w1; rewrite scan_once_fold; by apply scan_fold_reachable).
      by apply reachable_store_ok in Hr as [_ ? _ _].
    + rewrite Hfs. intros p st Hin Hp Hs. subst w1. rewrite scan_once_fold.
      cbv zeta. cbn [fst snd con with_con].
      apply scan_fold_holds; [done|]. left. split; [done|].
      unfold passes. by rewrite Hp, (Hsettled p st Hin Hp Hs).
  - rewrite !scan_once_fold. cbv zeta. cbn [fst snd].
    by rewrite !scan_fold_count, Hfs.
Qed.

Lemma scan_once_idempotent_witness :
  items (con (scan_once cfg0 100%Q (scan_once cfg0 100%Q two_folders).1).1)
  = items (con (scan_once cfg0 100%Q two_folders).1) /\
  (scan_once cfg0 100%Q (scan_once cfg0 100%Q two_folders).1).2
  = (scan_once cfg0 100%Q two_folders).2.
Proof.
  apply (scan_once_idempotent cfg0 100%Q 100%Q two_folders).
  - exact reachable_two_folders.
  - intros p st _ _ H. exact H.
Defined.

(** ** watcher.py: the event handler *)

Lemma with_con_same w : with_con w (con w) = w.
Proof. by destruct w. Qed.

Lemma has_path_count p (l : list Item) :
  NoDup (Item.path <$> l) ->
  (length (filter (fun r => has_path p r = true) l) <= 1)%nat.
Proof.
  induction l as [|r l IH]; intros Hnd; [simpl; lia|].
  rewrite fmap_cons in Hnd. apply NoDup_cons in Hnd as [Hr Hnd].
  rewrite filter_cons. destruct (decide (has_path p r = true)) as [Hi|Hi].
  - assert (filter (fun r => has_path p r = true) l = []) as ->; [|simpl; lia].
    apply elem_of_nil_inv. intros r' Hr'.
    apply list_elem_of_filter in Hr' as [Hi' Hr'].
    apply has_path_true in Hi, Hi'. apply Hr. rewrite Hi, <- Hi'.
    by apply list_elem_of_fmap_2.
  - by apply IH.
Qed.

(** [set_path_by_old_path] on a tracked path goes through when no other
    Item holds the new path. *)
Lemma set_path_by_old_path_ok c old np nf a :
  NoDup (Item.path <$> items c) ->
  get_item_by_path c old = Some a ->
  (forall b, b ∈ items c -> Item.path b = np -> Item.path b = old) ->
  set_path_by_old_path c old np nf
  = Ok (with_items c ((fun r => if has_path old r then move_row np nf r else r)
                        <$> items c)).
Proof.
  intros Hnd Ha Hfree. unfold set_path_by_old_path, update_path.
  assert (existsb (fun r => negb (has_path old r) && has_path np r) (items c)
          = false) as ->.
  { apply not_true_iff_false. intros Hex.
    apply existsb_true_elem in Hex as (b & Hb & Hsel).
    apply andb_true_iff in Hsel as [Hold Hp].
    apply negb_true_iff, has_path_false in Hold. apply has_path_true in Hp.
    by apply Hold, Hfree. }
  assert ((1 <? Z.of_nat (length (filter (fun r => has_path old r = true)
                                         (items c))))%Z = false) as ->.
  { apply Z.ltb_ge. pose proof (has_path_count old _ Hnd). lia. }
  by rewrite andb_false_r.
Qed.

(** X11: the move handler ignores directory events and treats a move of
    an untracked path as the creation of the destination.  For a tracked
    path it rewrites the record without a settle check: the Item, with the
    same id, is then found at the destination and no longer at the source,
    unless another Item holds the destination, in which case the handler
    raises [IntegrityError] and nothing changes.  No file is touched. *)
Theorem on_moved_retargets (cfg : Config) (now : Q) (src dest : string)
    (w : World) :
  on_moved cfg now true src dest w = (w, Ok tt) /\
  (get_item_by_path (con w) src = None ->
   on_moved cfg now false src dest w
   = (on_created cfg now false dest w, Ok tt)) /\
  (forall a,
     reachable (con w) ->
     get_item_by_path (con w) src = Some a ->
     (forall b, b ∈ items (con w) -> Item.path b = dest -> Item.path b = src) ->
     exists c' a',
       on_moved cfg now false src dest w = (with_con w c', Ok tt) /\
       reachable c' /\
       get_item_by_path c' dest = Some a' /\
       get_item c' (Item.id a) = Some a' /\
       a' = move_row dest (path_name dest) a /\
       (dest <> src -> get_item_by_path c' src = None)) /\
  (forall a b,
     get_item_by_path (con w) src = Some a ->
     b ∈ items (con w) -> Item.path b <> src -> Item.path b = dest ->
     on_moved cfg now false src dest w = (w, Raise IntegrityError)) /\
  fs (on_moved cfg now false src dest w).1 = fs w.
Proof.
  split; [done|]. split; [|split; [|split]].
  - intros H. unfold on_moved, on_created. by rewrite H.
  - intros a Hreach Ha Hfree.
    pose proof (reachable_store_ok _ Hreach) as [Hids Hpaths _ _].
    pose proof (set_path_by_old_path_ok _ _ _ (path_name dest) _ Hpaths Ha Hfree)
      as Hset.
    set (c' := with_items (con w) _) in Hset.
    assert (reachable c') as Hreach'
      by (by eapply reach_set_path_by_old_path).
    pose proof (reachable_store_ok _ Hreach') as [Hids' Hpaths' _ _].
    pose proof Ha as Ha'. apply find_Some_elem in Ha' as [Hin Hsel].
    assert (move_row dest (path_name dest) a ∈ items c') as Hin'.
    { unfold c'. simpl. apply (list_elem_of_fmap_2' _ _ a); [done|].
      by rewrite Hsel. }
    exists c', (move_row dest (path_name dest) a).
    split; [unfold on_moved; by rewrite Ha, Hset|].
    split; [done|].
    split; [exact (get_item_by_path_unique _ _ Hpaths' Hin')|].
    split; [exact (get_item_unique _ _ Hids' Hin')|].
    split; [done|].
    intros Hne. apply find_None_elem. intros x Hx.
    unfold c' in Hx. simpl in Hx.
    apply list_elem_of_fmap in Hx as (r & -> & Hr).
    destruct (has_path src r) eqn:Hsr; [|done].
    by apply has_path_false.
  - intros a b Ha Hb Hne Hp. unfold on_moved. rewrite Ha.
    apply find_Some_elem in Ha as [Hin Hsel].
    unfold set_path_by_old_path.
    rewrite (update_path_clash _ _ _ _ a b); try done.
    by apply has_path_false.
  - unfold on_moved.
    destruct (get_item_by_path (con w) src); [|done].
    by destruct (set_path_by_old_path _ _ _ _).
Qed.

Lemma on_moved_retargets_witness :
  exists c' a',
    on_moved cfg0 40%Q false "/d/a.txt" "/d/c.txt" one_folder
    = (with_con one_folder c', Ok tt) /\
    get_item_by_path c' "/d/c.txt" = Some a' /\
    Item.id a' = 1 /\
    get_item_by_path c' "/d/a.txt" = None.
Proof.
  destruct (on_moved_retargets cfg0 40%Q "/d/a.txt" "/d/c.txt" one_folder)
    as (_ & _ & Htracked & _).
  destruct (Htracked (fresh_row 1 "/d/a.txt" "a.txt" 3 10%Q 20%Q))
    as (c' & a' & Hrun & _ & Hdest & _ & -> & Hsrc).
  - exact reachable_one_folder.
  - reflexivity.
  - intros b Hin Hp. exfalso.
    repeat (apply elem_of_cons in Hin as [->|Hin]; [discriminate Hp|]).
    by apply elem_of_nil in Hin.
  - exists c', (move_row "/d/c.txt" (path_name "/d/c.txt")
                  (fresh_row 1 "/d/a.txt" "a.txt" 3 10%Q 20%Q)).
    split; [exact Hrun|]. split; [exact Hdest|]. split; [reflexivity|].
    apply Hsrc. discriminate.
Defined.

Lemma upsert_file_registers c p st now :
  registered (upsert_file c p (path_name p) (st_size st) (st_mtime st) now).1
             p st.
Proof.
  rewrite upsert_file_con.
  destruct (upsert_statement_present c p (path_name p) (st_size st)
              (st_mtime st) now) as [it Hit].
  exists it. split; [done|].
  destruct (get_item_by_path c p) as [old|] eqn:Hold.
  - rewrite (upsert_statement_update _ _ _ _ _ _ _ Hold) in Hit.
    by injection Hit as <-.
  - rewrite (upsert_statement_insert _ _ _ _ _ _ Hold) in Hit.
    by injection Hit as <-.
Qed.

(** X12: the create and modify handlers ignore directory events and
    vanished files and touch no file.  A modify event registers the file
    with its size and mtime whether or not it is settled and whether or
    not it is tracked; a create event does the same for a settled file
    and leaves the store alone for one that is too new. *)
Theorem modify_skips_settle_check (cfg : Config) (now : Q) (p : string)
    (w : World) :
  on_created cfg now true p w = w /\ on_modified now true p w = w /\
  (fs w !! p = None ->
   on_created cfg now false p w = w /\ on_modified now false p w = w) /\
  (forall st, fs w !! p = Some st ->
     registered (con (on_modified now false p w)) p st /\
     (intake_too_new cfg now st = true -> on_created cfg now false p w = w) /\
     (intake_too_new cfg now st = false ->
      on_created cfg now false p w = on_modified now false p w)) /\
  fs (on_created cfg now false p w) = fs w /\
  fs (on_modified now false p w) = fs w.
Proof.
  split; [done|]. split; [done|]. split; [|split; [|split]].
  - intros H. unfold on_created, on_modified, intake. rewrite H.
    by rewrite with_con_same.
  - intros st H. unfold on_created, on_modified, intake. rewrite H.
    split; [apply upsert_file_registers|]. split.
    + intros ->. apply with_con_same.
    + by intros ->.
  - done.
  - unfold on_modified. by destruct (fs w !! p).
Qed.

Lemma modify_skips_settle_check_witness :
  registered (con (on_modified 11%Q false "/d/a.txt"
                     (mkWorld empty_db (fs one_folder)))) "/d/a.txt" file_a /\
  on_created cfg0 11%Q false "/d/a.txt" (mkWorld empty_db (fs one_folder))
  = mkWorld empty_db (fs one_folder).
Proof.
  destruct (modify_skips_settle_check cfg0 11%Q "/d/a.txt"
              (mkWorld empty_db (fs one_folder))) as (_ & _ & _ & Hfile & _).
  destruct (Hfile file_a eq_refl) as (Hreg & Hnew & _).
  split; [exact Hreg|]. apply Hnew. by vm_compute.
Defined.

(** ** actions.py, again *)

Lemma mark_reviewed_known i now w a :
  get_item (con w) i = Some a ->
  mark_reviewed i now w
  = (with_con w (set_status (con w) i reviewed now),
     Ok (apply_status reviewed now a)).
Proof.
  intros Ha. run. rewrite Ha. step.
  by rewrite (get_item_known_set_status _ _ _ _ _ Ha).
Qed.

Lemma reject_known i now w a :
  get_item (con w) i = Some a ->
  reject i now w
  = (with_con w (set_status (con w) i rejected now),
     Ok (apply_status rejected now a)).
Proof.
  intros Ha. run. rewrite Ha. step.
  by rewrite (get_item_known_set_status _ _ _ _ _ Ha).
Qed.




Lemma get_item_other_set_status c i st now j :
  j <> i -> get_item (set_status c i st now) j = get_item c j.
Proof.
  intros Hj. rewrite get_item_set_status.
  destruct (get_item c j) as [b|] eqn:Hb; [|done]. simpl.
  apply find_Some_elem in Hb as [_ Hb]. apply has_id_true in Hb.
  by rewrite (proj2 (has_id_false i b)) by congruence.
Qed.



(** X14: on a known id [mark_reviewed] returns the Item as it is stored
    after the update, with status [reviewed]; a [reject] after it returns
    the Item with status [rejected], with the review time still in place
    and the rejection time filled in first-write-wins.  The path stays,
    no file is touched, and Items with other ids are as before. *)
Theorem review_then_reject (item_id : Z) (now later : Q) (w : World) (a : Item) :
  get_item (con w) item_id = Some a ->
  let r1 := mark_reviewed item_id now w in
  let r2 := reject item_id later r1.1 in
  exists a1 a2,
    r1.2 = Ok a1 /\ r2.2 = Ok a2 /\
    get_item (con r1.1) item_id = Some a1 /\
    get_item (con r2.1) item_id = Some a2 /\
    Item.status a1 = reviewed /\ Item.status a2 = rejected /\
    Item.reviewed_at a1 = Some (default now (Item.reviewed_at a)) /\
    Item.reviewed_at a2 = Item.reviewed_at a1 /\
    Item.rejected_at a1 = Item.rejected_at a /\
    Item.rejected_at a2 = Some (default later (Item.rejected_at a)) /\
    Item.archived_at a2 = Item.archived_at a /\
    Item.path a2 = Item.path a /\ Item.id a2 = Item.id a /\
    fs r2.1 = fs w /\
    (forall j, j <> item_id -> get_item (con r2.1) j = get_item (con w) j).
Proof.
  intros Ha r1 r2. subst r1 r2.
  rewrite (mark_reviewed_known _ _ _ _ Ha). cbn [fst snd].
  pose proof (get_item_known_set_status _ _ reviewed now _ Ha) as Ha1.
  rewrite (reject_known _ _ _ (apply_status reviewed now a)) by done.
  cbn [fst snd con fs with_con].
  exists (apply_status reviewed now a),
         (apply_status rejected later (apply_status reviewed now a)).
  split; [done|]. split; [done|]. split; [done|].
  split; [by apply get_item_known_set_status|].
  destruct a as [? ? ? ? ? ? ? ra aa ja ?]. simpl.
  repeat split; try by (destruct ra, aa, ja).
  intros j Hj. by rewrite !get_item_other_set_status.
Qed.

Lemma review_then_reject_witness :
  exists a1 a2,
    (mark_reviewed 1 30%Q one_folder).2 = Ok a1 /\
    (reject 1 40%Q (mark_reviewed 1 30%Q one_folder).1).2 = Ok a2 /\
    Item.status a2 = rejected /\
    Item.reviewed_at a2 = Some 30%Q /\ Item.rejected_at a2 = Some 40%Q.
Proof.
  destruct (review_then_reject 1 30%Q 40%Q one_folder
              (fresh_row 1 "/d/a.txt" "a.txt" 3 10%Q 20%Q) eq_refl)
    as (a1 & a2 & H1 & H2 & _ & _ & _ & Hst & Hra1 & Hra2 & _ & Hja2 & _).
  exists a1, a2. split; [exact H1|]. split; [exact H2|]. split; [exact Hst|].
  split; [by rewrite Hra2, Hra1 | exact Hja2].
Defined.

(** ** _unique_dest and the names it tries *)





Lemma str_app_nil_l (x : string) : "" ++ x = x.
Proof. done. Qed.

Lemma str_app_cons c (a b : string) : String c a ++ b = String c (a ++ b).
Proof. done. Qed.

Lemma str_app_nil_r (x : string) : x ++ "" = x.
Proof. induction x as [|c x IH]; [done|]. by rewrite str_app_cons, IH. Qed.

Lemma str_app_assoc (a b c : string) : a ++ b ++ c = (a ++ b) ++ c.
Proof.
  induction a as [|x a IH]; [done|]. by rewrite !str_app_cons, IH.
Qed.

Lemma str_length_app (a b : string) :
  String.length (a ++ b) = (String.length a + String.length b)%nat.
Proof. induction a as [|c a IH]; simpl; [done | by rewrite IH]. Qed.

Lemma str_app_inj_r (a b s : string) : a ++ s = b ++ s -> a = b.
Proof.
  revert b. induction a as [|c a IH]; intros [|d b] H; simpl in *.
  - done.
  - apply (f_equal String.length) in H.
    rewrite !str_length_app in H. simpl in H. lia.
  - apply (f_equal String.length) in H.
    rewrite !str_length_app in H. simpl in H. lia.
  - injection H as -> H. f_equal. by apply IH.
Qed.

Lemma joinpath_inj d x y : joinpath d x = joinpath d y -> x = y.
Proof.
  unfold joinpath. destruct (String.eqb d "."); [done|].
  destruct (ends_with_sep d); intros H.
  - by apply (inj (String.app d)) in H.
  - apply (inj (String.app d)) in H. by injection H.
Qed.

Lemma before_last_sep_app p s c x :
  has_char p x = false -> p c = true -> before_last p (s ++ String c x) = s.
Proof.
  intros Hx Hc. induction s as [|a s IH].
  - simpl. by rewrite Hx.
  - change (String a s ++ String c x) with (String a (s ++ String c x)).
    cbn [before_last].
    assert (has_char p (s ++ String c x) = true) as ->.
    { rewrite has_char_app. simpl. by rewrite Hc, orb_true_r. }
    by rewrite IH.
Qed.

(** X16: the alternative names [_unique_dest] tries are pairwise
    different and differ from the plain name, and a name with a suffix
    keeps its suffix: [a.txt] becomes [a-1.txt], [a-2.txt], ... *)
Theorem candidate_names (dest_dir filename : string) (i j : Z) :
  (candidate dest_dir filename i = candidate dest_dir filename j -> i = j) /\
  candidate dest_dir filename i <> joinpath dest_dir (path_name filename) /\
  (0 <= i -> has_suffix (path_name filename) = true ->
   suffix (candidate dest_dir filename i) = suffix filename /\
   stem (candidate dest_dir filename i) = stem filename ++ "-" ++ pretty i).
Proof.
  assert (stem filename ++ suffix filename = path_name filename) as Hsplit.
  { unfold stem, suffix. destruct (has_suffix (path_name filename)) eqn:Hs.
    - unfold has_suffix in Hs.
      apply andb_true_iff in Hs as [Hs _]. apply andb_true_iff in Hs as [Hd _].
      generalize (path_name filename) Hd. clear.
      induction s as [|c s IH]; [done|]. intros Hd.
      cbn [before_last after_last]. rewrite Hd.
      destruct (has_char is_dot s) eqn:Hs.
      + rewrite str_app_cons. f_equal. by apply IH.
      + simpl in Hd. rewrite Hs, orb_false_r in Hd.
        unfold is_dot in Hd. apply Ascii.eqb_eq in Hd as ->.
        by rewrite str_app_nil_l, after_last_id.
    - apply str_app_nil_r. }
  split; [|split].
  - unfold candidate. intros H. apply joinpath_inj in H.
    apply (inj (String.app _)) in H. apply (inj (String.app _)) in H.
    apply str_app_inj_r in H. by apply (inj pretty) in H.
  - unfold candidate. intros H. apply joinpath_inj in H.
    rewrite <- Hsplit in H. apply (inj (String.app _)) in H.
    apply (f_equal String.length) in H. simpl in H.
    rewrite !str_length_app in H. simpl in H. lia.
  - intros Hi Hs.
    assert (has_char is_dot (after_last is_dot (path_name filename)) = false)
      as Hpost by apply after_last_clean.
    unfold suffix at 1, stem at 1. rewrite candidate_name by done.
    unfold suffix, stem. rewrite Hs.
    rewrite (str_app_assoc "-"), (str_app_assoc _ ("-" ++ pretty i)).
    unfold has_suffix.
    rewrite before_last_sep_app, after_last_sep_app by done.
    rewrite has_char_app. simpl. rewrite orb_true_r.
    unfold has_suffix in Hs.
    apply andb_true_iff in Hs as [_ Hnonempty]. rewrite Hnonempty.
    destruct (before_last is_dot (path_name filename)); simpl; done.
Qed.

Lemma candidate_names_witness :
  0 <= 1 /\ has_suffix (path_name "a.txt") = true /\
  suffix (candidate "/arc" "a.txt" 1) = ".txt" /\
  stem (candidate "/arc" "a.txt" 1) = "a-1".
Proof.
  split; [lia|]. split; [reflexivity|].
  exact (proj2 (proj2 (candidate_names "/arc" "a.txt" 1 2)) Z.le_0_1 eq_refl).
Defined.

(** ** rename, there and back *)







